(** * A shallow embedding of the arcade simulation core

    Sources embedded here:
    - [src/lib/game/types.ts]      (records [Position], [Bullet], [EnemyConfig],
                                    [GameState], enum [EnemyType]);
    - [src/unnamed/part_000]       (class [EnemyFactory]);
    - [src/lib/game/GameEngine.ts] (class [GameEngine]);
    - [src/unnamed/part_001]       (component [Game]: the handlers that call
                                    the engine, and the countdown);
    - [src/pages/api/mint-sbt.ts]  (the mint endpoint);
    - [src/contracts/BaseShooterSBT.sol] (the token contract, over its
                                    inherited library code as parameters).

    The classes [Base], [Enemy] and [CollisionDetector] are imported by the
    engine, but their files ([Base.ts], [Enemy.ts], [CollisionDetector.ts])
    are missing.  The engine is therefore written against three interfaces
    (type classes) whose operations are exactly the members the engine
    calls; an instance written after the prose specification is given in
    [SpecModel].

    Numbers.  A JavaScript [number] is an IEEE double.  Quantities that the
    code only ever builds from integer literals by [+], [-], [*] and [++]
    (timestamps in ms, score, level, health, damage) are integers and are
    modelled in [Z]; this is exact below 2^53.  Geometric quantities
    (coordinates, speeds, sizes: the table has a speed of 1.5) are modelled
    as exact rationals [Q], so a sum such as [bullet.x += bullet.vx] is
    exact here where the code rounds it to a double.  The statements below
    are about which elements the passes keep, remove or visit and do not
    depend on the value of a sum; the one that does (bullets leaving the
    play area after enough rounds) is stated for integer-valued coordinates and
    velocities below 2^51 in magnitude, on which double addition is exact
    and the two agree. *)

From Stdlib Require Import ZArith QArith Qround String List Bool Lia Lqa.
From stdpp Require Import base list.
Import ListNotations.

Local Open Scope Z_scope.

(** ** Ambient effects: [Date.now()] and [Math.random()] *)

(** The outside world, as far as the engine can observe it: the sequence of
    values the wall clock will return and the sequence of entropy samples,
    each with the number of reads made so far. *)
Record World : Type := mkWorld {
  clock : nat -> Z;
  clock_reads : nat;
  entropy : nat -> Q;
  entropy_reads : nat
}.

(** Computations that may read the clock or draw random numbers. *)
Definition Eff (A : Type) : Type := World -> A * World.

Definition ret {A} (a : A) : Eff A := fun w => (a, w).

Definition bind {A B} (m : Eff A) (k : A -> Eff B) : Eff B :=
  fun w => let (a, w') := m w in k a w'.

Declare Scope eff_scope.
Delimit Scope eff_scope with eff.
Notation "'let*' x ':=' m 'in' k" := (bind m (fun x => k))
  (at level 10, x pattern, m at level 100, k at level 200) : eff_scope.
Local Open Scope eff_scope.

(** [Date.now()]: the next clock reading. *)
Definition Date_now : Eff Z :=
  fun w => (clock w (clock_reads w),
            mkWorld (clock w) (S (clock_reads w)) (entropy w) (entropy_reads w)).

(** [Math.random()]: a number in the half-open interval from 0 to 1, taken as
    the fractional part of the next entropy sample. *)
Definition Math_random : Eff Q :=
  fun w => let r := entropy w (entropy_reads w) in
           ((r - inject_Z (Qfloor r))%Q,
            mkWorld (clock w) (clock_reads w) (entropy w) (S (entropy_reads w))).

(** Strict comparison on [Q] as a boolean. *)
Definition Qltb (a b : Q) : bool := negb (Qle_bool b a).

(** ** JavaScript arrays *)

(** [arr.splice(i, 1)]: remove the element at index [i]; nothing happens when
    [i] is not below the length. *)
Definition splice1 {A} (i : nat) (l : list A) : list A := delete i l.

(** [arr.push(x)]. *)
Definition push {A} (x : A) (l : list A) : list A := l ++ [x].

(** [Array.prototype.forEach], run over an array that lives inside a mutable
    state [S] and that the callback may itself change.  The length is read
    once, before the first call; index [k] then runs from 0 to that length,
    and at each [k] the callback is called with the element found at [k] in
    the array as it is at that moment; an index that is no longer present is
    skipped. *)
Fixpoint forEach_from {S A} (arr : S -> list A) (f : A -> nat -> S -> S)
    (steps k : nat) (s : S) : S :=
  match steps with
  | O => s
  | Datatypes.S steps' =>
      let s' := match arr s !! k with
                | Some a => f a k s
                | None => s
                end in
      forEach_from arr f steps' (Datatypes.S k) s'
  end.

Definition forEach {S A} (arr : S -> list A) (f : A -> nat -> S -> S) (s : S) : S :=
  forEach_from arr f (length (arr s)) 0%nat s.

(** ** [types.ts] *)

Module Position.
Record t : Type := mk { x : Q; y : Q }.
End Position.

Inductive EnemyType : Type :=
  | STARKENT | SCROLL | ZKSYN | TAIKO   (* level 1: melee only *)
  | LINEA | OP                         (* level 2: have guns *)
  | ARB | POLYGON.                     (* level 3 *)

#[global] Instance EnemyType_eq_dec : EqDecision EnemyType.
Proof. solve_decision. Defined.

(** The string value of each enum member. *)
Definition EnemyType_value (t : EnemyType) : string :=
  match t with
  | STARKENT => "starkent" | SCROLL => "scroll" | ZKSYN => "zksyn"
  | TAIKO => "taiko" | LINEA => "linea" | OP => "op"
  | ARB => "arb" | POLYGON => "polygon"
  end.

Module EnemyConfig.
Record t : Type := mk {
  type : EnemyType;
  health : Z;
  speed : Q;
  imagePath : string;
  width : Q;
  height : Q;
  canShoot : bool;
  shootInterval : Z;
  level : Z;
  bulletsPerShot : option Z;
  bulletSpeed : option Q
}.
End EnemyConfig.

Module Bullet.
Record t : Type := mk {
  x : Q;
  y : Q;
  vx : Q;
  vy : Q;
  width : Q;
  height : Q;
  isPlayerBullet : bool;
  damage : Z
}.
End Bullet.

Module GameState.
(** [levelDuration] is read from a table indexed by the level, so it is
    [undefined] ([None]) when the level has no entry. *)
Record t : Type := mk {
  score : Z;
  level : Z;
  playerHealth : Z;
  maxPlayerHealth : Z;
  isGameOver : bool;
  isPaused : bool;
  levelStartTime : Z;
  levelDuration : option Z
}.
End GameState.

(** ** The collaborators of the engine *)

(** [class Base]: the members the engine and its callers use. *)
Class BaseClass : Type := {
  Base : Type;
  Base_new : Q -> Q -> Base;
  Base_health : Base -> Z;
  Base_maxHealth : Base -> Z;
  Base_getCenter : Base -> Position.t;
  Base_takeDamage : Z -> Base -> Base;
  Base_isAlive : Base -> bool;
  Base_moveUp : Q -> Base -> Base;
  Base_moveDown : Q -> Base -> Base
}.

(** [class Enemy].  The constructor may draw random numbers (the spawn
    coordinate is randomised) and [shoot] may read the clock (it records the
    time of the shot); both therefore live in [Eff].  Methods that mutate
    the receiver return the new receiver. *)
Class EnemyClass : Type := {
  Enemy : Type;
  Enemy_new : EnemyConfig.t -> Q -> Q -> Eff Enemy;
  Enemy_config : Enemy -> EnemyConfig.t;
  Enemy_update : Q -> Q -> Enemy -> Enemy;
  Enemy_canShoot : Z -> Enemy -> bool;
  Enemy_shoot : Position.t -> Enemy -> Eff (option Bullet.t * Enemy);
  Enemy_takeDamage : Z -> Enemy -> Enemy;
  Enemy_isAlive : Enemy -> bool;
  Enemy_isOffScreen : Enemy -> bool
}.

(** [class CollisionDetector]: three static predicates. *)
Class CollisionDetectorClass `{BaseClass} `{EnemyClass} : Type := {
  bulletEnemyCollision : Bullet.t -> Enemy -> bool;
  bulletBaseCollision : Bullet.t -> Base -> bool;
  enemyBaseCollision : Enemy -> Base -> bool
}.

(** ** [EnemyFactory] *)

Module EnemyFactory.
Section WithEnemy.
Context `{EC : EnemyClass}.

(** One entry of the table: the key and the object literal under it (no
    entry sets [bulletsPerShot] or [bulletSpeed]). *)
Definition config (t : EnemyType) (health : Z) (speed : Q) (imagePath : string)
    (width height : Q) (canShoot : bool) (shootInterval level : Z)
    : EnemyType * EnemyConfig.t :=
  (t, EnemyConfig.mk t health speed imagePath width height canShoot shootInterval
        level None None).

(** The static table [enemyConfigs]: for each level an object from enemy
    type to configuration, kept as an association list in the order the
    keys were written (the order [Object.keys] returns them in).  A level
    without an entry reads as [undefined]. *)
Definition enemyConfigs (level : Z) : option (list (EnemyType * EnemyConfig.t)) :=
  match level with
  | 1 => Some
      [ config STARKENT 30 2 "/images/starkent-the-enemy.png" 50 50 false 0 1;
        config SCROLL 30 2 "/images/scroll-the-enemy.jpg" 50 50 false 0 1;
        config ZKSYN 30 2 "/images/zksyn-the-enemy.jpg" 50 50 false 0 1;
        config TAIKO 30 2 "/images/taiko-the-enemy.png" 50 50 false 0 1 ]
  | 2 => Some
      [ config LINEA 50 3 "/images/linea-the-enemy.png" 55 55 true 2000 2;
        config OP 50 3 "/images/op-the-enemy.jpg" 55 55 true 2000 2 ]
  | 3 => Some
      [ config ARB 100 (3 # 2) "/images/arb-the-enemy.jpg" 70 70 true 1500 3;
        config POLYGON 100 (3 # 2) "/images/polygon-the-enemy.jpg" 70 70 true 1500 3 ]
  | _ => None
  end.

(** [Object.keys(configs)]. *)
Definition keys (configs : list (EnemyType * EnemyConfig.t)) : list EnemyType :=
  map fst configs.

(** [configs[type]]: [undefined] when the object has no such key. *)
Fixpoint get (configs : list (EnemyType * EnemyConfig.t)) (t : EnemyType)
    : option EnemyConfig.t :=
  match configs with
  | [] => None
  | (k, c) :: rest => if decide (k = t) then Some c else get rest t
  end.

Definition getEnemyTypesForLevel (level : Z) : list EnemyType :=
  match enemyConfigs level with
  | Some configs => keys configs
  | None => []
  end.

(** [createRandomEnemy].  With [Math.random()] below 1 the index is always
    in range for the tables above; the last branch (index out of range,
    where the source would hand [undefined] to the constructor) is kept
    total by returning no enemy. *)
Definition createRandomEnemy (level : Z) (canvasWidth canvasHeight : Q)
    : Eff (option Enemy) :=
  match enemyConfigs level with
  | None => ret None
  | Some configs =>
      let enemyTypes := keys configs in
      let* r := Math_random in
      let i := Qfloor (r * inject_Z (Z.of_nat (length enemyTypes))) in
      match (if i <? 0 then None else enemyTypes !! Z.to_nat i) with
      | Some randomType =>
          match get configs randomType with
          | Some config =>
              let* e := Enemy_new config canvasWidth canvasHeight in ret (Some e)
          | None => ret None
          end
      | None => ret None
      end
  end.

Definition createEnemy (t : EnemyType) (level : Z) (canvasWidth canvasHeight : Q)
    : Eff (option Enemy) :=
  match enemyConfigs level with
  | None => ret None
  | Some configs =>
      match get configs t with
      | None => ret None
      | Some config =>
          let* e := Enemy_new config canvasWidth canvasHeight in ret (Some e)
      end
  end.

End WithEnemy.
End EnemyFactory.

(** ** [GameEngine] *)

Section Engine.
Context `{BC : BaseClass} `{EC : EnemyClass} `{CD : !CollisionDetectorClass}.

Record GameEngine : Type := mkEngine {
  base : Base;
  enemies : list Enemy;
  bullets : list Bullet.t;
  gameState : GameState.t;
  canvasWidth : Q;
  canvasHeight : Q;
  lastSpawnTime : Z;
  spawnInterval : Z
}.

(** The private, never reassigned table [levelDurations]. *)
Definition levelDurations (level : Z) : option Z :=
  match level with
  | 1 => Some 30000
  | 2 => Some 60000
  | 3 => Some 40000
  | _ => None
  end.

(** *** Field assignments *)

Definition set_base (b : Base) (this : GameEngine) : GameEngine :=
  mkEngine b (enemies this) (bullets this) (gameState this)
           (canvasWidth this) (canvasHeight this) (lastSpawnTime this) (spawnInterval this).

Definition set_enemies (l : list Enemy) (this : GameEngine) : GameEngine :=
  mkEngine (base this) l (bullets this) (gameState this)
           (canvasWidth this) (canvasHeight this) (lastSpawnTime this) (spawnInterval this).

Definition set_bullets (l : list Bullet.t) (this : GameEngine) : GameEngine :=
  mkEngine (base this) (enemies this) l (gameState this)
           (canvasWidth this) (canvasHeight this) (lastSpawnTime this) (spawnInterval this).

Definition set_gameState (g : GameState.t) (this : GameEngine) : GameEngine :=
  mkEngine (base this) (enemies this) (bullets this) g
           (canvasWidth this) (canvasHeight this) (lastSpawnTime this) (spawnInterval this).

Definition set_lastSpawnTime (t : Z) (this : GameEngine) : GameEngine :=
  mkEngine (base this) (enemies this) (bullets this) (gameState this)
           (canvasWidth this) (canvasHeight this) t (spawnInterval this).

Definition set_spawnInterval (i : Z) (this : GameEngine) : GameEngine :=
  mkEngine (base this) (enemies this) (bullets this) (gameState this)
           (canvasWidth this) (canvasHeight this) (lastSpawnTime this) i.

Definition set_score (v : Z) (g : GameState.t) : GameState.t :=
  GameState.mk v (GameState.level g) (GameState.playerHealth g)
    (GameState.maxPlayerHealth g) (GameState.isGameOver g) (GameState.isPaused g)
    (GameState.levelStartTime g) (GameState.levelDuration g).

Definition set_level (v : Z) (g : GameState.t) : GameState.t :=
  GameState.mk (GameState.score g) v (GameState.playerHealth g)
    (GameState.maxPlayerHealth g) (GameState.isGameOver g) (GameState.isPaused g)
    (GameState.levelStartTime g) (GameState.levelDuration g).

Definition set_playerHealth (v : Z) (g : GameState.t) : GameState.t :=
  GameState.mk (GameState.score g) (GameState.level g) v
    (GameState.maxPlayerHealth g) (GameState.isGameOver g) (GameState.isPaused g)
    (GameState.levelStartTime g) (GameState.levelDuration g).

Definition set_isGameOver (v : bool) (g : GameState.t) : GameState.t :=
  GameState.mk (GameState.score g) (GameState.level g) (GameState.playerHealth g)
    (GameState.maxPlayerHealth g) v (GameState.isPaused g)
    (GameState.levelStartTime g) (GameState.levelDuration g).

Definition set_isPaused (v : bool) (g : GameState.t) : GameState.t :=
  GameState.mk (GameState.score g) (GameState.level g) (GameState.playerHealth g)
    (GameState.maxPlayerHealth g) (GameState.isGameOver g) v
    (GameState.levelStartTime g) (GameState.levelDuration g).

Definition set_levelStartTime (v : Z) (g : GameState.t) : GameState.t :=
  GameState.mk (GameState.score g) (GameState.level g) (GameState.playerHealth g)
    (GameState.maxPlayerHealth g) (GameState.isGameOver g) (GameState.isPaused g)
    v (GameState.levelDuration g).

Definition set_levelDuration (v : option Z) (g : GameState.t) : GameState.t :=
  GameState.mk (GameState.score g) (GameState.level g) (GameState.playerHealth g)
    (GameState.maxPlayerHealth g) (GameState.isGameOver g) (GameState.isPaused g)
    (GameState.levelStartTime g) v.

(** An enemy is an object held in [this.enemies]; a method that mutates the
    enemy found at index [k] changes that slot of the array. *)
Definition setEnemy (k : nat) (enemy : Enemy) (this : GameEngine) : GameEngine :=
  set_enemies (<[k := enemy]> (enemies this)) this.

Definition setBullet (k : nat) (bullet : Bullet.t) (this : GameEngine) : GameEngine :=
  set_bullets (<[k := bullet]> (bullets this)) this.

(** *** [constructor] *)

Definition GameEngine_new (canvasWidth canvasHeight : Q) : Eff GameEngine :=
  let base := Base_new canvasWidth canvasHeight in
  let* now := Date_now in
  ret (mkEngine base [] []
         (GameState.mk 0 1 (Base_health base) (Base_maxHealth base) false false
                       now (levelDurations 1))
         canvasWidth canvasHeight 0 2000).

(** *** [spawnEnemies] *)

Definition spawnEnemies (currentTime : Z) (this : GameEngine) : Eff GameEngine :=
  if spawnInterval this <=? currentTime - lastSpawnTime this then
    let* enemy := EnemyFactory.createRandomEnemy
                    (GameState.level (gameState this))
                    (canvasWidth this) (canvasHeight this) in
    let this := match enemy with
                | Some e => set_enemies (push e (enemies this)) this
                | None => this
                end in
    let this := set_lastSpawnTime currentTime this in
    ret (set_spawnInterval
           (Z.max 800 (2000 - (GameState.level (gameState this) - 1) * 200)) this)
  else ret this.

(** *** [nextLevel] *)

Definition nextLevel (this : GameEngine) : Eff GameEngine :=
  if GameState.level (gameState this) <? 3 then
    let this := set_gameState
                  (set_level (GameState.level (gameState this) + 1) (gameState this))
                  this in
    let this := set_enemies [] this in
    let this := set_bullets [] this in
    let* now := Date_now in
    let this := set_gameState (set_levelStartTime now (gameState this)) this in
    let this := set_gameState
                  (set_levelDuration (levelDurations (GameState.level (gameState this)))
                                     (gameState this))
                  this in
    let* now' := Date_now in
    ret (set_lastSpawnTime now' this)
  else
    ret (set_gameState (set_isGameOver true (gameState this)) this).

(** *** [shoot] *)

Definition shoot (this : GameEngine) : GameEngine :=
  let center := Base_getCenter (base this) in
  set_bullets
    (push (Bullet.mk (Position.x center) (Position.y center) 8 0 10 10 true 20)
          (bullets this))
    this.

(** *** [reset] *)

Definition reset (this : GameEngine) : Eff GameEngine :=
  let this := set_base (Base_new (canvasWidth this) (canvasHeight this)) this in
  let this := set_enemies [] this in
  let this := set_bullets [] this in
  let* now := Date_now in
  let this := set_gameState
                (GameState.mk 0 1 (Base_health (base this)) (Base_maxHealth (base this))
                              false false now (levelDurations 1))
                this in
  let* now' := Date_now in
  ret (set_lastSpawnTime now' this).

(** *** [update] *)

(** The callback of [this.enemies.forEach] (the enemy update).  The state
    it runs in is the engine together with the world, since [shoot] is
    effectful. *)
Definition updateEnemy (currentTime : Z) (enemy : Enemy) (k : nat)
    (s : GameEngine * World) : GameEngine * World :=
  let (this, w) := s in
  let enemy := Enemy_update (canvasWidth this) (canvasHeight this) enemy in
  let this := setEnemy k enemy this in
  (* Enemy shoots at player *)
  let '(enemy, this, w) :=
    if Enemy_canShoot currentTime enemy then
      let baseCenter := Base_getCenter (base this) in
      let '(bullet, enemy, w) := Enemy_shoot baseCenter enemy w in
      let this := setEnemy k enemy this in
      match bullet with
      | Some b => (enemy, set_bullets (push b (bullets this)) this, w)
      | None => (enemy, this, w)
      end
    else (enemy, this, w) in
  (* Check melee collision (Level 1 enemies) *)
  if negb (EnemyConfig.canShoot (Enemy_config enemy))
     && enemyBaseCollision enemy (base this) then
    let this := set_base (Base_takeDamage 5 (base this)) this in
    let this := set_gameState
                  (set_playerHealth (Base_health (base this)) (gameState this)) this in
    let enemy := Enemy_takeDamage 100 enemy in
    (setEnemy k enemy this, w)
  else (this, w).

Definition updateEnemies (currentTime : Z) (this : GameEngine) : Eff GameEngine :=
  fun w => forEach (fun s => enemies (fst s)) (updateEnemy currentTime) (this, w).

(** The callback of the first [this.bullets.forEach]. *)
Definition moveBullet (bullet : Bullet.t) (k : nat) (this : GameEngine) : GameEngine :=
  setBullet k
    (Bullet.mk (Bullet.x bullet + Bullet.vx bullet) (Bullet.y bullet + Bullet.vy bullet)
               (Bullet.vx bullet) (Bullet.vy bullet)
               (Bullet.width bullet) (Bullet.height bullet)
               (Bullet.isPlayerBullet bullet) (Bullet.damage bullet))
    this.

Definition moveBullets (this : GameEngine) : GameEngine :=
  forEach bullets moveBullet this.

Definition bulletOnScreen (this : GameEngine) (bullet : Bullet.t) : bool :=
  Qltb (-50) (Bullet.x bullet)
  && Qltb (Bullet.x bullet) (canvasWidth this + 50)
  && Qltb (-50) (Bullet.y bullet)
  && Qltb (Bullet.y bullet) (canvasHeight this + 50).

Definition removeOffScreenBullets (this : GameEngine) : GameEngine :=
  set_bullets (List.filter (bulletOnScreen this) (bullets this)) this.

Definition removeOffScreenEnemies (this : GameEngine) : GameEngine :=
  set_enemies (List.filter (fun enemy => negb (Enemy_isOffScreen enemy)) (enemies this))
              this.

(** The callback of the inner [this.enemies.forEach] of the player-bullet
    pass; [bullet] and [bulletIndex] are the variables captured from the
    outer callback. *)
Definition hitEnemy (bullet : Bullet.t) (bulletIndex : nat)
    (enemy : Enemy) (enemyIndex : nat) (this : GameEngine) : GameEngine :=
  if bulletEnemyCollision bullet enemy then
    let enemy := Enemy_takeDamage (Bullet.damage bullet) enemy in
    let this := setEnemy enemyIndex enemy this in
    let this := set_bullets (splice1 bulletIndex (bullets this)) this in
    if negb (Enemy_isAlive enemy) then
      let this := set_gameState
                    (set_score (GameState.score (gameState this)
                                + 10 * GameState.level (gameState this))
                               (gameState this))
                    this in
      set_enemies (splice1 enemyIndex (enemies this)) this
    else this
  else this.

(** The callback of the outer [this.bullets.forEach] of that pass. *)
Definition playerBulletStep (bullet : Bullet.t) (bulletIndex : nat)
    (this : GameEngine) : GameEngine :=
  if Bullet.isPlayerBullet bullet then
    forEach enemies (hitEnemy bullet bulletIndex) this
  else this.

Definition resolvePlayerBullets (this : GameEngine) : GameEngine :=
  forEach bullets playerBulletStep this.

(** The callback of the last [this.bullets.forEach]. *)
Definition enemyBulletStep (bullet : Bullet.t) (bulletIndex : nat)
    (this : GameEngine) : GameEngine :=
  if negb (Bullet.isPlayerBullet bullet) then
    if bulletBaseCollision bullet (base this) then
      let this := set_base (Base_takeDamage (Bullet.damage bullet) (base this)) this in
      let this := set_gameState
                    (set_playerHealth (Base_health (base this)) (gameState this)) this in
      let this := set_bullets (splice1 bulletIndex (bullets this)) this in
      if negb (Base_isAlive (base this)) then
        set_gameState (set_isGameOver true (gameState this)) this
      else this
    else this
  else this.

Definition resolveEnemyBullets (this : GameEngine) : GameEngine :=
  forEach bullets enemyBulletStep this.

Definition refreshPlayerHealth (this : GameEngine) : GameEngine :=
  set_gameState (set_playerHealth (Base_health (base this)) (gameState this)) this.

(** [levelElapsed >= this.gameState.levelDuration]; a comparison with
    [undefined] is false. *)
Definition durationElapsed (levelElapsed : Z) (levelDuration : option Z) : bool :=
  match levelDuration with
  | Some d => d <=? levelElapsed
  | None => false
  end.

(** The part of [update] between the level check and the player-bullet
    pass: spawning, enemy update, bullet movement and the two filters. *)
Definition updateWorld (currentTime : Z) (this : GameEngine) : Eff GameEngine :=
  let* this := spawnEnemies currentTime this in
  let* this := updateEnemies currentTime this in
  let this := moveBullets this in
  let this := removeOffScreenBullets this in
  ret (removeOffScreenEnemies this).

Definition update (this : GameEngine) : Eff GameEngine :=
  if GameState.isPaused (gameState this) || GameState.isGameOver (gameState this) then
    ret this
  else
    let* currentTime := Date_now in
    let levelElapsed := currentTime - GameState.levelStartTime (gameState this) in
    if durationElapsed levelElapsed (GameState.levelDuration (gameState this)) then
      nextLevel this
    else
      let* this := updateWorld currentTime this in
      let this := resolvePlayerBullets this in
      let this := resolveEnemyBullets this in
      ret (refreshPlayerHealth this).

(** *** The callers' direct accesses (component [Game]) *)

(** [handlePause]: [gameState.isPaused = !gameState.isPaused]. *)
Definition handlePause (this : GameEngine) : GameEngine :=
  set_gameState (set_isPaused (negb (GameState.isPaused (gameState this)))
                              (gameState this)) this.

(** [engine.base.moveUp(CANVAS_HEIGHT)] and [moveDown], with
    [CANVAS_HEIGHT = 600]. *)
Definition handleMoveUp (this : GameEngine) : GameEngine :=
  set_base (Base_moveUp 600 (base this)) this.

Definition handleMoveDown (this : GameEngine) : GameEngine :=
  set_base (Base_moveDown 600 (base this)) this.

(** *** Observations used in the statements below *)

(** The fields that only the level check, the spawn step, [reset] and
    [handlePause] assign. *)
Definition frame (this : GameEngine) : Z * bool * Z * option Z * Z * Q * Q * Z * Z :=
  (GameState.level (gameState this), GameState.isPaused (gameState this),
   GameState.levelStartTime (gameState this), GameState.levelDuration (gameState this),
   GameState.maxPlayerHealth (gameState this),
   canvasWidth this, canvasHeight this, lastSpawnTime this, spawnInterval this).

(** The world after the one clock read that opens an active tick. *)
Definition afterClockRead (w : World) : World := (Date_now w).2.

(** The time an invocation made in world [w] will read first. *)
Definition timeAt (w : World) : Z := clock w (clock_reads w).

(** Whether an invocation made in world [w] gets past both early returns
    of [update]. *)
Definition running (this : GameEngine) (w : World) : bool :=
  negb (GameState.isPaused (gameState this) || GameState.isGameOver (gameState this))
  && negb (durationElapsed (timeAt w - GameState.levelStartTime (gameState this))
                           (GameState.levelDuration (gameState this))).

(** The engine as the player-bullet pass of that invocation finds it:
    after spawning, the enemy update, the bullet movement and the removal
    of what left the screen. *)
Definition pruned (this : GameEngine) (w : World) : GameEngine :=
  (updateWorld (timeAt w) this (afterClockRead w)).1.

(** What the player-bullet pass keeps constant: score plus the value of
    the adversaries still in the collection. *)
Definition accounted (L K : Z) (N : nat) (s : GameEngine) : Prop :=
  GameState.level (gameState s) = L
  /\ GameState.score (gameState s) + 10 * L * Z.of_nat (length (enemies s)) = K
  /\ (length (enemies s) <= N)%nat.

(** Whether an invocation made in world [w] performs the spawn step. *)
Definition spawns (this : GameEngine) (w : World) : bool :=
  running this w && (spawnInterval this <=? timeAt w - lastSpawnTime this).

(** [n] consecutive invocations of [update]. *)
Fixpoint updates (n : nat) (this : GameEngine) : Eff GameEngine :=
  match n with
  | O => ret this
  | S n' => let* this := update this in updates n' this
  end.

(** The engine states that the constructor and the operations of the
    engine and of its callers can produce. *)
Inductive Reachable : GameEngine -> Prop :=
  | Reachable_new canvasWidth canvasHeight w :
      Reachable (GameEngine_new canvasWidth canvasHeight w).1
  | Reachable_update this w : Reachable this -> Reachable (update this w).1
  | Reachable_nextLevel this w : Reachable this -> Reachable (nextLevel this w).1
  | Reachable_shoot this : Reachable this -> Reachable (shoot this)
  | Reachable_reset this w : Reachable this -> Reachable (reset this w).1
  | Reachable_handlePause this : Reachable this -> Reachable (handlePause this)
  | Reachable_handleMoveUp this : Reachable this -> Reachable (handleMoveUp this)
  | Reachable_handleMoveDown this : Reachable this -> Reachable (handleMoveDown this).

(** *** More of the component [Game] *)

(** [SHOOT_COOLDOWN]. *)
Definition SHOOT_COOLDOWN : Z := 1500.

(** What [handleShoot] works on: the engine and the ref
    [lastShootTimeRef], which starts at 0. *)
Record GameUI : Type := mkUI {
  gameEngine : GameEngine;
  lastShootTimeRef : Z
}.

(** [handleShoot], the handler of the on-screen shoot button. *)
Definition handleShoot (ui : GameUI) : Eff GameUI :=
  let* now := Date_now in
  if negb (GameState.isGameOver (gameState (gameEngine ui)))
     && negb (GameState.isPaused (gameState (gameEngine ui)))
     && (SHOOT_COOLDOWN <=? now - lastShootTimeRef ui)
  then ret (mkUI (shoot (gameEngine ui)) now)
  else ret ui.

(** [Math.ceil(x / 1000)] for an integer [x]. *)
Definition ceilDiv1000 (x : Z) : Z := - ((- x) / 1000).

(** [levelTimeRemaining], the seconds shown in the info bar.  With an
    [undefined] duration the arithmetic yields [NaN], here [None]. *)
Definition levelTimeRemaining (this : GameEngine) : Eff (option Z) :=
  let* now := Date_now in
  ret (match GameState.levelDuration (gameState this) with
       | Some d =>
           Some (Z.max 0 (ceilDiv1000
                            (d - (now - GameState.levelStartTime (gameState this)))))
       | None => None
       end).

(** *** Further observations *)

(** Bullet movement followed by the removal of the bullets that left the
    screen, as [update] performs them in a row. *)
Definition flight (this : GameEngine) : GameEngine :=
  removeOffScreenBullets (moveBullets this).

(** The new position of a bullet after one movement step. *)
Definition movedBullet (bullet : Bullet.t) : Bullet.t :=
  Bullet.mk (Bullet.x bullet + Bullet.vx bullet) (Bullet.y bullet + Bullet.vy bullet)
            (Bullet.vx bullet) (Bullet.vy bullet)
            (Bullet.width bullet) (Bullet.height bullet)
            (Bullet.isPlayerBullet bullet) (Bullet.damage bullet).

(** What the two collision passes keep: the play area and the fact that
    every bullet satisfies a given test. *)
Definition bulletsAll (W H : Q) (P : Bullet.t -> Prop) (s : GameEngine) : Prop :=
  canvasWidth s = W /\ canvasHeight s = H /\ Forall P (bullets s).

(** A bullet whose horizontal position and velocity are integers of
    magnitude at most 2^51.  On such values the double addition of the
    movement step is exact, and a bullet that the culling keeps on a play
    area of [exactWidth] has a position between -50 and 2^51 + 50, so the
    next addition stays below 2^53 in magnitude and is exact again. *)
Definition exactBullet (bullet : Bullet.t) : Prop :=
  exists xi vi : Z,
    (Bullet.x bullet == inject_Z xi)%Q /\ (Bullet.vx bullet == inject_Z vi)%Q
    /\ - 2 ^ 51 <= xi <= 2 ^ 51 /\ - 2 ^ 51 <= vi <= 2 ^ 51.

(** A play area whose width is an integer between 0 and 2^51, so that
    [canvasWidth + 50] is exact as well. *)
Definition exactWidth (this : GameEngine) : Prop :=
  exists wi : Z, (canvasWidth this == inject_Z wi)%Q /\ 0 <= wi <= 2 ^ 51.

(** What can happen to an engine without a [reset]. *)
Inductive Continues : GameEngine -> GameEngine -> Prop :=
  | Continues_here this : Continues this this
  | Continues_update this this' w :
      Continues this this' -> Continues this (update this' w).1
  | Continues_nextLevel this this' w :
      Continues this this' -> Continues this (nextLevel this' w).1
  | Continues_shoot this this' : Continues this this' -> Continues this (shoot this')
  | Continues_handlePause this this' :
      Continues this this' -> Continues this (handlePause this')
  | Continues_handleMoveUp this this' :
      Continues this this' -> Continues this (handleMoveUp this')
  | Continues_handleMoveDown this this' :
      Continues this this' -> Continues this (handleMoveDown this').

End Engine.

(** ** The mint endpoint ([pages/api/mint-sbt.ts]) *)

Module MintApi.

(** [s.includes(sub)]. *)
Fixpoint includes (sub s : string) : bool :=
  String.prefix sub s
  || match s with
     | EmptyString => false
     | String _ s' => includes sub s'
     end.

(** JavaScript truthiness of a value that is a string or [undefined]. *)
Definition truthy (s : option string) : bool :=
  match s with
  | Some s => negb (String.eqb s "")
  | None => false
  end.

(** What the [catch] clause reads of a thrown value. *)
Record Thrown : Type := mkThrown {
  code : option string;
  errorMessage : option string
}.

(** A request: its method, and its parsed body, which is absent ([None])
    or an object whose [address] property is a string or is missing. *)
Record Request : Type := mkRequest {
  method : option string;
  body : option (option string)
}.

(** The status and the JSON object sent back. *)
Record Response : Type := mkResponse {
  status : Z;
  success : bool;
  message : option string;
  txHash : option string;
  error : option string
}.

(** What the code between the last check and the inspection of the receipt
    (provider, wallet, contract, [mint], [wait]) comes to: a receipt for a
    transaction hash, or a thrown value. *)
Inductive ChainResult : Type :=
  | Receipt (hash : string) (receiptStatus : Z)
  | Throws (e : Thrown).

Section Handler.
(** [SBT_CONFIG] (its file is missing) and the environment. *)
Variable AbiItem : Type.
Variable CONTRACT_ADDRESS : option string.
Variable CONTRACT_ABI : option (list AbiItem).
Variable SBT_MINTER_PRIVATE_KEY : option string.
(** [ethers.isAddress]. *)
Variable isAddress : string -> bool.
(** The chain, asked to mint to an address with a private key. *)
Variable chain : string -> string -> ChainResult.
(** The [TypeError] of destructuring a missing body. *)
Variable destructuringError : Thrown.

Definition fail (st : Z) (msg : string) : Response :=
  mkResponse st false None None (Some msg).

(** The [catch] clause. *)
Definition onError (e : Thrown) : Response :=
  if match code e with
     | Some c => String.eqb c "INSUFFICIENT_FUNDS"
     | None => false
     end
  then fail 500 "Insufficient funds for transaction"
  else if match errorMessage e with
          | Some m => includes "user rejected" m
          | None => false
          end
  then fail 400 "Transaction was rejected"
  else fail 500 (match errorMessage e with
                 | Some m => if String.eqb m "" then "Failed to mint SBT"%string else m
                 | None => "Failed to mint SBT"%string
                 end).

Definition handler (req : Request) : Response :=
  if negb match method req with
          | Some m => String.eqb m "POST"
          | None => false
          end
  then fail 405 "Method not allowed"
  else
    match body req with
    | None => onError destructuringError
    | Some address =>
        match address with
        | Some a =>
            if String.eqb a "" then fail 400 "Wallet address is required"
            else if negb (isAddress a) then fail 400 "Invalid wallet address format"
            else if negb (truthy CONTRACT_ADDRESS) then
              fail 500 "SBT contract address not configured. Please set CONTRACT_ADDRESS in config/sbt-config.ts"
            else if match CONTRACT_ABI with
                    | Some abi => (length abi =? 0)%nat
                    | None => true
                    end
            then
              fail 500 "SBT contract ABI not configured. Please set CONTRACT_ABI in config/sbt-config.ts"
            else
              match SBT_MINTER_PRIVATE_KEY with
              | Some privateKey =>
                  if String.eqb privateKey "" then
                    fail 500 "Server configuration error: Private key not set in environment variables"
                  else
                    match chain privateKey a with
                    | Receipt hash receiptStatus =>
                        if receiptStatus =? 1 then
                          mkResponse 200 true (Some "SBT minted successfully!"%string)
                                     (Some hash) None
                        else fail 500 "Transaction failed"
                    | Throws e => onError e
                    end
              | None =>
                  fail 500 "Server configuration error: Private key not set in environment variables"
              end
        | None => fail 400 "Wallet address is required"
        end
    end.

(** The checks that stand before the chain is asked. *)
Definition accepted (req : Request) : bool :=
  match method req, body req with
  | Some m, Some (Some a) =>
      String.eqb m "POST" && negb (String.eqb a "") && isAddress a
      && truthy CONTRACT_ADDRESS
      && match CONTRACT_ABI with
         | Some abi => negb (length abi =? 0)%nat
         | None => false
         end
      && truthy SBT_MINTER_PRIVATE_KEY
  | _, _ => false
  end.
End Handler.

End MintApi.

(** ** The token contract ([contracts/BaseShooterSBT.sol]) *)

Module BaseShooterSBT.

(** [type(uint256).max]; a checked [++] reverts there. *)
Definition MAX_UINT256 : Z := 2 ^ 256 - 1.

Section Contract.
(** The storage and the code that the contract inherits from the
    OpenZeppelin library ([ERC721URIStorage], [Ownable],
    [ReentrancyGuard]) are not part of the repository.  The inherited
    storage is an abstract type, and the inherited functions the
    contract calls are parameters; a revert is [None].  [_safeMint]
    may call the recipient, which may call back into everything that
    is neither [nonReentrant] nor barred by [onlyOwner]: it can
    therefore change the inherited storage and, through [setBaseURI],
    the base URI, but not the counter or the token lists. *)
Variable Inherited : Type.
Variable owner : Inherited -> Z.
Variable _safeMint : Z -> Z -> Inherited * string -> option (Inherited * string).
Variable _setTokenURI : Z -> string -> Inherited -> option Inherited.

(** The storage of the contract, addresses being numbers, together with
    the [SBTMinted] events emitted so far. *)
Record Storage : Type := mkStorage {
  inherited : Inherited;
  _baseTokenURI : string;
  _tokenCounter : Z;
  _tokensByOwner : Z -> list Z;
  emitted : list (Z * Z)
}.

(** The constructor. *)
Definition deploy (inh : Inherited) (baseTokenURI : string) : Storage :=
  mkStorage inh baseTokenURI 0 (fun _ => []) [].

(** The statements that [mint] and the loop of [batchMint] share: the
    zero-address check, the counter, the two inherited calls, the push
    and the event. *)
Definition mintTo (to : Z) (s : Storage) : option Storage :=
  if to =? 0 then None
  else
    let tokenId := _tokenCounter s in
    if tokenId =? MAX_UINT256 then None
    else
      match _safeMint to tokenId (inherited s, _baseTokenURI s) with
      | None => None
      | Some (inh, uri) =>
          match _setTokenURI tokenId uri inh with
          | None => None
          | Some inh' =>
              Some (mkStorage inh' uri (tokenId + 1)
                      (fun a => if a =? to
                                then _tokensByOwner s a ++ [tokenId]
                                else _tokensByOwner s a)
                      (emitted s ++ [(to, tokenId)]))
          end
      end.

(** [mint], called by [sender]. *)
Definition mint (sender to : Z) (s : Storage) : option Storage :=
  if sender =? owner (inherited s) then mintTo to s else None.

Fixpoint mintAll (recipients : list Z) (s : Storage) : option Storage :=
  match recipients with
  | [] => Some s
  | to :: rest =>
      match mintTo to s with
      | None => None
      | Some s' => mintAll rest s'
      end
  end.

(** [batchMint], called by [sender]. *)
Definition batchMint (sender : Z) (recipients : list Z) (s : Storage)
    : option Storage :=
  if sender =? owner (inherited s) then
    if (length recipients =? 0)%nat then None
    else if (100 <? length recipients)%nat then None
    else mintAll recipients s
  else None.

Definition tokensOfOwner (s : Storage) (a : Z) : list Z := _tokensByOwner s a.

Definition totalSupply (s : Storage) : Z := _tokenCounter s.

(** [setBaseURI], called by [sender]. *)
Definition setBaseURI (sender : Z) (newBaseURI : string) (s : Storage)
    : option Storage :=
  if sender =? owner (inherited s)
  then Some (mkStorage (inherited s) newBaseURI (_tokenCounter s)
                       (_tokensByOwner s) (emitted s))
  else None.

Definition baseURI (s : Storage) : string := _baseTokenURI s.

(** The states of a deployed contract: what the constructor builds, and
    what the successful calls lead to.  The inherited external
    functions can change the inherited storage only. *)
Inductive Deployed : Storage -> Prop :=
  | Deployed_deploy inh uri : Deployed (deploy inh uri)
  | Deployed_mint s sender to s' :
      Deployed s -> mint sender to s = Some s' -> Deployed s'
  | Deployed_batchMint s sender recipients s' :
      Deployed s -> batchMint sender recipients s = Some s' -> Deployed s'
  | Deployed_setBaseURI s sender uri s' :
      Deployed s -> setBaseURI sender uri s = Some s' -> Deployed s'
  | Deployed_inherited s inh' :
      Deployed s ->
      Deployed (mkStorage inh' (_baseTokenURI s) (_tokenCounter s)
                          (_tokensByOwner s) (emitted s)).

(** The token ids [from], [from + 1], ... handed to a list of
    recipients, in order. *)
Fixpoint issue (from : Z) (recipients : list Z) : list (Z * Z) :=
  match recipients with
  | [] => []
  | to :: rest => (to, from) :: issue (from + 1) rest
  end.

(** What the token lists and the events always satisfy. *)
Definition consistent (s : Storage) : Prop :=
  0 <= _tokenCounter s <= MAX_UINT256
  /\ emitted s = issue 0 (map fst (emitted s))
  /\ Z.of_nat (length (emitted s)) = _tokenCounter s
  /\ (forall a id, id ∈ _tokensByOwner s a <-> (a, id) ∈ emitted s)
  /\ (forall a, NoDup (_tokensByOwner s a))
  /\ (forall id, (0, id) ∉ emitted s).
End Contract.

End BaseShooterSBT.

(** ** The collaborators as the specification describes them *)

Module SpecModel.

(** Modelled from the spec: the record of class [Base] (file [Base.ts] is
    missing): position, size, health, maximal health and speed. *)
Record BaseObj : Type := mkBase {
  bx : Q; by_ : Q; bwidth : Q; bheight : Q;
  bhealth : Z; bmaxHealth : Z; bspeed : Q
}.

(** Modelled from the spec: the record of class [Enemy] (file [Enemy.ts] is
    missing): configuration, health, position and time of the last shot. *)
Record EnemyObj : Type := mkEnemy {
  econfig : EnemyConfig.t;
  ex : Q; ey : Q;
  ehealth : Z;
  elastShotTime : Z
}.

Definition Qmaxq (a b : Q) : Q := if Qle_bool a b then b else a.
Definition Qminq (a b : Q) : Q := if Qle_bool a b then a else b.

(** Modelled from the spec: [Base.moveUp], a move toward the top of the
    screen clamped to the play area. *)
Definition moveUp (canvasHeight : Q) (b : BaseObj) : BaseObj :=
  mkBase (bx b) (Qmaxq 0 (by_ b - bspeed b)) (bwidth b) (bheight b)
         (bhealth b) (bmaxHealth b) (bspeed b).

(** Modelled from the spec: [Base.moveDown], a move toward the bottom of the
    screen clamped to the play area. *)
Definition moveDown (canvasHeight : Q) (b : BaseObj) : BaseObj :=
  mkBase (bx b) (Qminq (canvasHeight - bheight b) (by_ b + bspeed b))
         (bwidth b) (bheight b) (bhealth b) (bmaxHealth b) (bspeed b).

(** Modelled from the spec: [Base.takeDamage], which subtracts from health
    and clamps at 0. *)
Definition takeDamage (amount : Z) (b : BaseObj) : BaseObj :=
  mkBase (bx b) (by_ b) (bwidth b) (bheight b)
         (Z.max 0 (bhealth b - amount)) (bmaxHealth b) (bspeed b).

(** Modelled from the spec: [Base.isAlive], health above 0. *)
Definition isAlive (b : BaseObj) : bool := 0 <? bhealth b.

(** Modelled from the spec: [Base.getCenter], the centre of the box. *)
Definition getCenter (b : BaseObj) : Position.t :=
  Position.mk (bx b + bwidth b / 2) (by_ b + bheight b / 2).

(** Modelled from the spec: [Enemy.update], the position decremented along
    the travel axis (x) by the speed. *)
Definition enemyUpdate (canvasWidth canvasHeight : Q) (e : EnemyObj) : EnemyObj :=
  mkEnemy (econfig e) (ex e - EnemyConfig.speed (econfig e)) (ey e)
          (ehealth e) (elastShotTime e).

(** Modelled from the spec: [Enemy.canShoot], true only for an archetype
    that can shoot, once the shoot interval has passed since the last
    shot. *)
Definition enemyCanShoot (now : Z) (e : EnemyObj) : bool :=
  EnemyConfig.canShoot (econfig e)
  && (EnemyConfig.shootInterval (econfig e) <=? now - elastShotTime e).

(** Modelled from the spec: [Enemy.takeDamage], a subtraction from
    health. *)
Definition enemyTakeDamage (amount : Z) (e : EnemyObj) : EnemyObj :=
  mkEnemy (econfig e) (ex e) (ey e) (ehealth e - amount) (elastShotTime e).

(** Modelled from the spec: [Enemy.isAlive], health above 0. *)
Definition enemyIsAlive (e : EnemyObj) : bool := 0 <? ehealth e.

(** Modelled from the spec: [Enemy.isOffScreen], the box has left the play
    area on the travel axis. *)
Definition enemyIsOffScreen (e : EnemyObj) : bool :=
  Qltb (ex e + EnemyConfig.width (econfig e)) 0.

(** Axis-aligned overlap of two boxes given by corner and size. *)
Definition overlap (x1 y1 w1 h1 x2 y2 w2 h2 : Q) : bool :=
  Qltb x1 (x2 + w2) && Qltb x2 (x1 + w1) && Qltb y1 (y2 + h2) && Qltb y2 (y1 + h1).

Section Unspecified.
(** What the specification leaves open: the initial defender for a play
    area, and the geometry and damage of the projectile an adversary
    fires at a target point (its velocity needs a square root). *)
Variable baseInit : Q -> Q -> BaseObj.
Variable enemyBullet : EnemyObj -> Position.t -> Bullet.t.

(** Modelled from the spec: the constructor of [Enemy], which places the
    adversary at the edge opposite the defender, at a height drawn
    uniformly over the vertical span of the play area. *)
Definition enemyNew (config : EnemyConfig.t) (canvasWidth canvasHeight : Q)
    : Eff EnemyObj :=
  let* r := Math_random in
  ret (mkEnemy config canvasWidth (r * canvasHeight) (EnemyConfig.health config) 0).

(** Modelled from the spec: [Enemy.shoot], which, when ready, records the
    time and returns an adversary-owned projectile aimed at the target. *)
Definition enemyShoot (target : Position.t) (e : EnemyObj)
    : Eff (option Bullet.t * EnemyObj) :=
  let* now := Date_now in
  if enemyCanShoot now e then
    let b := enemyBullet e target in
    ret (Some (Bullet.mk (Bullet.x b) (Bullet.y b) (Bullet.vx b) (Bullet.vy b)
                         (Bullet.width b) (Bullet.height b) false (Bullet.damage b)),
         mkEnemy (econfig e) (ex e) (ey e) (ehealth e) now)
  else ret (None, e).

(** Modelled from the spec: class [Base]. *)
Definition BaseModel : BaseClass :=
  {| Base := BaseObj;
     Base_new := baseInit;
     Base_health := bhealth;
     Base_maxHealth := bmaxHealth;
     Base_getCenter := getCenter;
     Base_takeDamage := takeDamage;
     Base_isAlive := isAlive;
     Base_moveUp := moveUp;
     Base_moveDown := moveDown |}.

(** Modelled from the spec: class [Enemy]. *)
Definition EnemyModel : EnemyClass :=
  {| Enemy := EnemyObj;
     Enemy_new := enemyNew;
     Enemy_config := econfig;
     Enemy_update := enemyUpdate;
     Enemy_canShoot := enemyCanShoot;
     Enemy_shoot := enemyShoot;
     Enemy_takeDamage := enemyTakeDamage;
     Enemy_isAlive := enemyIsAlive;
     Enemy_isOffScreen := enemyIsOffScreen |}.

(** Modelled from the spec: class [CollisionDetector], three bounding-box
    overlap tests. *)
Definition CollisionModel : @CollisionDetectorClass BaseModel EnemyModel :=
  {| bulletEnemyCollision := fun (b : Bullet.t) (e : @Enemy EnemyModel) =>
       overlap (Bullet.x b) (Bullet.y b) (Bullet.width b) (Bullet.height b)
               (ex e) (ey e) (EnemyConfig.width (econfig e))
               (EnemyConfig.height (econfig e));
     bulletBaseCollision := fun (b : Bullet.t) (d : @Base BaseModel) =>
       overlap (Bullet.x b) (Bullet.y b) (Bullet.width b) (Bullet.height b)
               (bx d) (by_ d) (bwidth d) (bheight d);
     enemyBaseCollision := fun (e : @Enemy EnemyModel) (d : @Base BaseModel) =>
       overlap (ex e) (ey e) (EnemyConfig.width (econfig e))
               (EnemyConfig.height (econfig e))
               (bx d) (by_ d) (bwidth d) (bheight d) |}.
End Unspecified.

End SpecModel.

(** ** A concrete play area, used to run the engine on examples *)

Module Sample.

(** A defender of 60 by 60 at the left edge, with 100 health. *)
Definition baseInit (canvasWidth canvasHeight : Q) : SpecModel.BaseObj :=
  SpecModel.mkBase 50 (Qred (canvasHeight / 2 - 30)) 60 60 100 100 5.

(** An adversary projectile leaving the adversary horizontally. *)
Definition enemyBullet (e : SpecModel.EnemyObj) (target : Position.t) : Bullet.t :=
  Bullet.mk (SpecModel.ex e) (SpecModel.ey e) (-4) 0 8 8 false 10.

Definition BC : BaseClass := SpecModel.BaseModel baseInit.
Definition EC : EnemyClass := SpecModel.EnemyModel enemyBullet.
Definition CD : @CollisionDetectorClass BC EC :=
  SpecModel.CollisionModel baseInit enemyBullet.

Definition Engine : Type := @GameEngine BC EC.

(** A clock that always shows [t] and an entropy source that always
    yields 0. *)
Definition worldAt (t : Z) : World := mkWorld (fun _ => t) 0 (fun _ => 0%Q) 0.

(** The configuration of the first level-1 archetype. *)
Definition starkent : EnemyConfig.t :=
  EnemyConfig.mk STARKENT 30 2 "/images/starkent-the-enemy.png" 50 50 false 0 1
                 None None.

Definition gs (level : Z) (health : Z) (paused over : bool) : GameState.t :=
  GameState.mk 0 level health 100 over paused 0 (@levelDurations level).

(** An engine on an 800 by 600 play area, started at time 0, that spawned
    its last adversary at time [lastSpawn]. *)
Definition engine (b : SpecModel.BaseObj) (es : list SpecModel.EnemyObj)
    (bs : list Bullet.t) (g : GameState.t) (lastSpawn : Z) : Engine :=
  @mkEngine BC EC b es bs g 800 600 lastSpawn 2000.

Definition playerBullet (x y : Q) : Bullet.t := Bullet.mk x y 8 0 10 10 true 20.

Definition enemyAt (x y : Q) (health : Z) : SpecModel.EnemyObj :=
  SpecModel.mkEnemy starkent x y health 0.

(** Level 1, 16 ms after the last spawn: two fresh adversaries two units
    apart, a defender projectile that will overlap both once it has moved,
    and a second defender projectile far from everything. *)
Definition twoInLine : Engine :=
  engine (baseInit 800 600) [enemyAt 400 100 30; enemyAt 402 100 30]
         [playerBullet 410 120; playerBullet 600 500]
         (gs 1 100 false false) 1000.

(** Level 1: one fresh melee adversary overlapping the defender, whose
    health is full. *)
Definition meleeContact : Engine :=
  engine (baseInit 800 600) [enemyAt 80 280 30] [] (gs 1 100 false false) 1000.

(** Level 2: an adversary with 10 health left under a defender
    projectile, and another one that has just left the screen. *)
Definition oneKill : Engine :=
  engine (baseInit 800 600) [enemyAt 400 100 10; enemyAt (-49) 300 30]
         [playerBullet 410 120] (gs 2 100 false false) 1000.

(** Level 1, paused, with live entities. *)
Definition pausedGame : Engine :=
  engine (baseInit 800 600) [enemyAt 400 100 30] [playerBullet 410 120]
         (gs 1 100 true false) 1000.

(** Level 2, empty, last spawn at time 1000 with the initial interval. *)
Definition dueToSpawn : Engine :=
  engine (baseInit 800 600) [] [] (gs 2 100 false false) 1000.

(** Level 1 with live entities; not paused, not over. *)
Definition level1Game : Engine :=
  engine (baseInit 800 600) [enemyAt 400 100 30] [playerBullet 410 120]
         (gs 1 100 false false) 29000.

(** Level 1, no adversary: a defender projectile far from the right
    margin and one about to cross it. *)
Definition twoInFlight : Engine :=
  engine (baseInit 800 600) [] [playerBullet 600 500; playerBullet 845 300]
         (gs 1 100 false false) 1000.

(** The configuration of the first level-2 archetype. *)
Definition linea : EnemyConfig.t :=
  EnemyConfig.mk LINEA 50 3 "/images/linea-the-enemy.png" 55 55 true 2000 2
                 None None.

(** Level 2, 16 ms after the last spawn: an adversary that shot 16 ms ago,
    a defender projectile that passes below it, and a projectile of an
    adversary on its way to the base but not there yet. *)
Definition nearMisses : Engine :=
  engine (baseInit 800 600)
         [SpecModel.mkEnemy linea 400 100 50 1000]
         [playerBullet 380 200; Bullet.mk 300 290 (-4) 0 8 8 false 10]
         (gs 2 100 false false) 1000.

(** Level 3, over. *)
Definition overGame : Engine :=
  engine (baseInit 800 600) [enemyAt 400 100 30] [] (gs 3 0 false true) 1000.

(** Level 1: a melee adversary in contact with a defender that has 5
    health left. *)
Definition lastStand : Engine :=
  engine (SpecModel.mkBase 50 270 60 60 5 100 5) [enemyAt 80 280 30] []
         (gs 1 5 false false) 1000.

(** An engine whose level (7) has no table, with a spawn due. *)
Definition strayLevel : Engine :=
  engine (baseInit 800 600) [] [] (gs 7 100 false false) 1000.

(** A clock that starts at 10000 and advances by 100 at every read. *)
Definition tickingWorld : World :=
  mkWorld (fun n => 10000 + 100 * Z.of_nat n) 0 (fun _ => 0%Q) 0.

(** A mint request and a chain that confirms every transaction. *)
Definition mintRequest (method : string) (address : string) : MintApi.Request :=
  MintApi.mkRequest (Some method) (Some (Some address)).

Definition confirmingChain (key address : string) : MintApi.ChainResult :=
  MintApi.Receipt "0xabc" 1.

Definition failingChain (key address : string) : MintApi.ChainResult :=
  MintApi.Throws (MintApi.mkThrown (Some "INSUFFICIENT_FUNDS"%string) None).

(** An address test that accepts the strings starting with 0x. *)
Definition startsWith0x (s : string) : bool := String.prefix "0x" s.

Definition noBody : MintApi.Thrown :=
  MintApi.mkThrown None (Some "Cannot destructure property"%string).

(** A stand-in for the inherited contracts: the inherited storage is just
    the owner's address, and the two inherited calls succeed and change
    nothing. *)
Definition sbtOwner (inh : Z) : Z := inh.
Definition sbtSafeMint (to tokenId : Z) (st : Z * string) : option (Z * string) :=
  Some st.
Definition sbtSetTokenURI (tokenId : Z) (uri : string) (inh : Z) : option Z := Some inh.

(** The contract as deployed by address 7. *)
Definition sbtFresh : BaseShooterSBT.Storage Z :=
  BaseShooterSBT.deploy Z 7 "ipfs://achievement".

Definition sbtMint := BaseShooterSBT.mint Z sbtOwner sbtSafeMint sbtSetTokenURI.
Definition sbtBatchMint :=
  BaseShooterSBT.batchMint Z sbtOwner sbtSafeMint sbtSetTokenURI.

(** The states after a mint to 42 and, then, a batch mint to 43 and 42. *)
Definition sbtAfterMint : BaseShooterSBT.Storage Z :=
  default sbtFresh (sbtMint 7 42 sbtFresh).
Definition sbtAfterBatch : BaseShooterSBT.Storage Z :=
  default sbtFresh (sbtBatchMint 7 [43; 42] sbtAfterMint).

End Sample.

(** * Properties *)

(** ** Iteration *)

Section ForEach.
Context {S A : Type} (arr : S -> list A) (f : A -> nat -> S -> S).

(** A property that every call of the callback preserves, at an index where
    the element is present, is preserved by the whole iteration. *)
Lemma forEach_from_inv (P : S -> Prop) :
  (forall a k s, arr s !! k = Some a -> P s -> P (f a k s)) ->
  forall steps k s, P s -> P (forEach_from arr f steps k s).
Proof.
  intros Hf steps.
  induction steps as [|n IH]; intros k s Hs; simpl; [exact Hs|].
  apply IH. destruct (arr s !! k) as [a|] eqn:E; [eapply Hf; eassumption | exact Hs].
Qed.

Lemma forEach_inv (P : S -> Prop) :
  (forall a k s, arr s !! k = Some a -> P s -> P (f a k s)) ->
  forall s, P s -> P (forEach arr f s).
Proof. intros Hf s. unfold forEach. apply forEach_from_inv, Hf. Qed.

(** In particular an observation [g] of the state that no call changes. *)
Lemma forEach_frame {T} (g : S -> T) :
  (forall a k s, arr s !! k = Some a -> g (f a k s) = g s) ->
  forall s, g (forEach arr f s) = g s.
Proof.
  intros Hf s.
  apply (forEach_inv (fun s' => g s' = g s)); [|reflexivity].
  intros a k s' Ha Hs'. rewrite Hf by exact Ha. exact Hs'.
Qed.
End ForEach.

Section EngineFacts.
Context `{BC : BaseClass} `{EC : EnemyClass} `{CD : !CollisionDetectorClass}.

Local Abbreviation level this := (GameState.level (gameState this)).
Local Abbreviation score this := (GameState.score (gameState this)).

Lemma updateEnemy_frame t a k s :
  frame (updateEnemy t a k s).1 = frame s.1 /\ score (updateEnemy t a k s).1 = score s.1.
Proof.
  destruct s as [this w]. unfold updateEnemy.
  destruct (Enemy_canShoot _ _).
  - destruct (Enemy_shoot _ _ _) as [[[b|] e'] w'];
      destruct (negb _ && _); split; reflexivity.
  - destruct (negb _ && _); split; reflexivity.
Qed.

Lemma updateEnemies_frame t this w :
  frame (updateEnemies t this w).1 = frame this /\
  score (updateEnemies t this w).1 = score this.
Proof.
  unfold updateEnemies.
  apply (forEach_inv (fun s => enemies s.1) (updateEnemy t)
           (fun s => frame s.1 = frame this /\ score s.1 = score this)).
  - intros a k s _ [H1 H2]. destruct (updateEnemy_frame t a k s) as [E1 E2].
    rewrite E1, E2. auto.
  - auto.
Qed.

Lemma moveBullets_frame this :
  frame (moveBullets this) = frame this /\ score (moveBullets this) = score this
  /\ enemies (moveBullets this) = enemies this.
Proof.
  unfold moveBullets.
  apply (forEach_inv bullets moveBullet
           (fun s => frame s = frame this /\ score s = score this
                     /\ enemies s = enemies this)); auto.
Qed.

Lemma hitEnemy_frame b bi a k this :
  frame (hitEnemy b bi a k this) = frame this.
Proof.
  unfold hitEnemy. destruct (bulletEnemyCollision _ _); [|reflexivity].
  destruct (negb _); reflexivity.
Qed.

Lemma playerBulletStep_frame b bi this :
  frame (playerBulletStep b bi this) = frame this.
Proof.
  unfold playerBulletStep. destruct (Bullet.isPlayerBullet b); [|reflexivity].
  apply forEach_frame. intros. apply hitEnemy_frame.
Qed.

Lemma resolvePlayerBullets_frame this :
  frame (resolvePlayerBullets this) = frame this.
Proof. apply forEach_frame. intros. apply playerBulletStep_frame. Qed.

Lemma enemyBulletStep_frame b bi this :
  frame (enemyBulletStep b bi this) = frame this
  /\ score (enemyBulletStep b bi this) = score this
  /\ enemies (enemyBulletStep b bi this) = enemies this.
Proof.
  unfold enemyBulletStep. destruct (negb (Bullet.isPlayerBullet b)); [|auto].
  destruct (bulletBaseCollision _ _); [|auto].
  destruct (negb (Base_isAlive _)); auto.
Qed.

Lemma resolveEnemyBullets_frame this :
  frame (resolveEnemyBullets this) = frame this
  /\ score (resolveEnemyBullets this) = score this
  /\ enemies (resolveEnemyBullets this) = enemies this.
Proof.
  apply (forEach_inv bullets enemyBulletStep
           (fun s => frame s = frame this /\ score s = score this
                     /\ enemies s = enemies this)); [|auto].
  intros a k s _ (H1 & H2 & H3).
  destruct (enemyBulletStep_frame a k s) as (E1 & E2 & E3).
  rewrite E1, E2, E3. auto.
Qed.

(** *** The shape of one invocation of [update] *)

Lemma spawnEnemies_gameState t this w :
  gameState (spawnEnemies t this w).1 = gameState this.
Proof.
  unfold spawnEnemies. destruct (_ <=? _); [|reflexivity].
  unfold bind. destruct (EnemyFactory.createRandomEnemy _ _ _ w) as [[e|] w']; reflexivity.
Qed.

Lemma spawnEnemies_idle t this w :
  t - lastSpawnTime this < spawnInterval this -> spawnEnemies t this w = (this, w).
Proof.
  intros Hlt. unfold spawnEnemies.
  destruct (Z.leb_spec (spawnInterval this) (t - lastSpawnTime this)); [lia|reflexivity].
Qed.

Lemma spawnEnemies_due t this w :
  spawnInterval this <= t - lastSpawnTime this ->
  spawnInterval (spawnEnemies t this w).1
    = Z.max 800 (2000 - (level this - 1) * 200)
  /\ lastSpawnTime (spawnEnemies t this w).1 = t.
Proof.
  intros Hle. unfold spawnEnemies.
  destruct (Z.leb_spec (spawnInterval this) (t - lastSpawnTime this)); [|lia].
  unfold bind. destruct (EnemyFactory.createRandomEnemy _ _ _ w) as [[e|] w'];
    split; reflexivity.
Qed.

Lemma updateWorld_after_spawn t this w :
  let s := (spawnEnemies t this w).1 in
  frame (updateWorld t this w).1 = frame s
  /\ score (updateWorld t this w).1 = score this.
Proof.
  unfold updateWorld, bind.
  pose proof (spawnEnemies_gameState t this w) as Hg.
  destruct (spawnEnemies t this w) as [s1 w1]. simpl in *.
  pose proof (updateEnemies_frame t s1 w1) as [Hf Hs].
  destruct (updateEnemies t s1 w1) as [s2 w2]. simpl in *.
  destruct (moveBullets_frame s2) as (Mf & Ms & _).
  unfold removeOffScreenEnemies, removeOffScreenBullets, frame in *. simpl.
  split; [rewrite <- Hf; exact Mf | rewrite Ms, Hs, Hg; reflexivity].
Qed.

(** An invocation made while paused or over returns at once. *)
Lemma update_halted this w :
  GameState.isPaused (gameState this) || GameState.isGameOver (gameState this) = true ->
  update this w = (this, w).
Proof. intros H. unfold update. rewrite H. reflexivity. Qed.


(** An active invocation whose level time has not run out goes through
    all the passes. *)
Lemma update_running this w :
  GameState.isPaused (gameState this) = false ->
  GameState.isGameOver (gameState this) = false ->
  durationElapsed (timeAt w - GameState.levelStartTime (gameState this))
                  (GameState.levelDuration (gameState this)) = false ->
  update this w =
    let (s, w') := updateWorld (timeAt w) this (afterClockRead w) in
    (refreshPlayerHealth (resolveEnemyBullets (resolvePlayerBullets s)), w').
Proof.
  intros Hp Ho Hd. unfold update. rewrite Hp, Ho. simpl.
  unfold bind, afterClockRead, timeAt in *. simpl. rewrite Hd.
  destruct (updateWorld _ _ _). reflexivity.
Qed.

Lemma passes_frame s :
  frame (refreshPlayerHealth (resolveEnemyBullets (resolvePlayerBullets s))) = frame s.
Proof.
  destruct (resolveEnemyBullets_frame (resolvePlayerBullets s)) as (Hf & _ & _).
  transitivity (frame (resolveEnemyBullets (resolvePlayerBullets s))); [reflexivity|].
  rewrite Hf. apply resolvePlayerBullets_frame.
Qed.

Lemma nextLevel_unfold this w :
  (nextLevel this w).1 =
    if level this <? 3 then
      mkEngine (base this) [] []
        (GameState.mk (score this) (level this + 1)
           (GameState.playerHealth (gameState this))
           (GameState.maxPlayerHealth (gameState this))
           (GameState.isGameOver (gameState this)) (GameState.isPaused (gameState this))
           (clock w (clock_reads w)) (levelDurations (level this + 1)))
        (canvasWidth this) (canvasHeight this)
        (clock w (S (clock_reads w))) (spawnInterval this)
    else set_gameState (set_isGameOver true (gameState this)) this.
Proof. unfold nextLevel. destruct (level this <? 3); reflexivity. Qed.

(** Past the spawn step an active tick assigns none of the [frame]
    fields. *)
Lemma update_running_frame this w :
  GameState.isPaused (gameState this) = false ->
  GameState.isGameOver (gameState this) = false ->
  durationElapsed (timeAt w - GameState.levelStartTime (gameState this))
                  (GameState.levelDuration (gameState this)) = false ->
  frame (update this w).1 = frame (spawnEnemies (timeAt w) this (afterClockRead w)).1.
Proof.
  intros Hp Ho Hd. rewrite update_running by assumption.
  pose proof (updateWorld_after_spawn (timeAt w) this (afterClockRead w)) as [Hf _].
  destruct (updateWorld _ _ _) as [s w']. cbn [fst] in *.
  rewrite passes_frame. exact Hf.
Qed.

(** Without a transition the level is what it was. *)
Lemma update_level_same this w :
  durationElapsed (timeAt w - GameState.levelStartTime (gameState this))
                  (GameState.levelDuration (gameState this)) = false ->
  level (update this w).1 = level this.
Proof.
  intros Hd.
  destruct (GameState.isPaused (gameState this) || GameState.isGameOver (gameState this))
    eqn:Hh.
  - rewrite update_halted by exact Hh. reflexivity.
  - apply orb_false_elim in Hh as [Hp Ho].
    pose proof (update_running_frame this w Hp Ho Hd) as Hf.
    apply (f_equal (fun x => x.1.1.1.1.1.1.1.1)) in Hf. cbn [fst frame] in Hf.
    rewrite Hf, spawnEnemies_gameState. reflexivity.
Qed.

(** *** The level check and the halted states *)

(** C2.  In every engine state whose paused flag or game-over flag is set,
    one invocation of [update] returns the engine exactly as it was: the
    defender, every adversary, every projectile and every field of the game
    state are unchanged (and so is the world: not even the clock is read).
    Invoking it again changes nothing further. *)
Theorem update_halted_is_noop this w :
  GameState.isPaused (gameState this) = true
  \/ GameState.isGameOver (gameState this) = true ->
  update this w = (this, w)
  /\ (let (this', w') := update this w in update this' w') = (this, w).
Proof.
  intros H.
  assert (Hh : GameState.isPaused (gameState this)
               || GameState.isGameOver (gameState this) = true).
  { destruct H as [-> | ->]; [reflexivity | apply orb_true_r]. }
  rewrite !(update_halted this w Hh). split; reflexivity.
Qed.


(** *** Score *)

Lemma delete_insert_same {A} (l : list A) (k : nat) (x : A) :
  delete k (<[k := x]> l) = delete k l.
Proof.
  rewrite !delete_take_drop, take_insert_ge, drop_insert_lt by lia. reflexivity.
Qed.

(** One call of the inner callback on a colliding pair. *)
Lemma hitEnemy_hit b bi a k s :
  enemies s !! k = Some a ->
  bulletEnemyCollision b a = true ->
  let a' := Enemy_takeDamage (Bullet.damage b) a in
  let s' := hitEnemy b bi a k s in
  (Enemy_isAlive a' = false ->
     score s' = score s + 10 * level s /\ enemies s' = delete k (enemies s))
  /\ (Enemy_isAlive a' = true ->
     score s' = score s /\ enemies s' = <[k := a']> (enemies s)).
Proof.
  intros Hk Hc a' s'. subst a' s'. unfold hitEnemy. rewrite Hc.
  split; intros Hl; rewrite Hl; simpl; split; try reflexivity.
  unfold splice1. apply delete_insert_same.
Qed.

Lemma hitEnemy_accounted L K N b bi a k s :
  enemies s !! k = Some a -> accounted L K N s -> accounted L K N (hitEnemy b bi a k s).
Proof.
  intros Hk (HL & HK & HN). unfold hitEnemy, accounted.
  destruct (bulletEnemyCollision b a); [|auto].
  destruct (negb _); simpl.
  - unfold splice1. rewrite delete_insert_same, length_delete by eauto.
    apply lookup_lt_Some in Hk. rewrite Nat2Z.inj_sub by lia.
    repeat split; [exact HL | rewrite HL; lia | lia].
  - rewrite length_insert. auto.
Qed.

Lemma resolvePlayerBullets_accounted L K N s :
  accounted L K N s -> accounted L K N (resolvePlayerBullets s).
Proof.
  apply forEach_inv. intros b bi s' _ Hs'. unfold playerBulletStep.
  destruct (Bullet.isPlayerBullet b); [|exact Hs'].
  revert Hs'. apply forEach_inv. intros a k s'' Hk. apply hitEnemy_accounted, Hk.
Qed.

Lemma resolvePlayerBullets_score s :
  score (resolvePlayerBullets s)
    = score s + 10 * level s * (Z.of_nat (length (enemies s))
                                - Z.of_nat (length (enemies (resolvePlayerBullets s))))
  /\ (length (enemies (resolvePlayerBullets s)) <= length (enemies s))%nat.
Proof.
  destruct (resolvePlayerBullets_accounted (level s)
              (score s + 10 * level s * Z.of_nat (length (enemies s)))
              (length (enemies s)) s) as (_ & HK & HN).
  { repeat split. lia. }
  split; [lia | exact HN].
Qed.

Lemma nextLevel_score this w : score (nextLevel this w).1 = score this.
Proof. rewrite nextLevel_unfold. destruct (level this <? 3); reflexivity. Qed.

Lemma running_true this w :
  running this w = true ->
  GameState.isPaused (gameState this) = false
  /\ GameState.isGameOver (gameState this) = false
  /\ durationElapsed (timeAt w - GameState.levelStartTime (gameState this))
                     (GameState.levelDuration (gameState this)) = false.
Proof.
  unfold running. intros H. apply andb_prop in H as [H1 H2].
  apply negb_true_iff in H1, H2. apply orb_false_elim in H1 as [? ?]. auto.
Qed.

Lemma update_not_running this w :
  running this w = false -> score (update this w).1 = score this.
Proof.
  unfold running, update. intros H.
  destruct (GameState.isPaused (gameState this) || GameState.isGameOver (gameState this));
    [reflexivity|].
  simpl in H. apply negb_false_iff in H.
  unfold bind, timeAt in *. simpl. rewrite H. apply nextLevel_score.
Qed.

(** C5.  Score accounting of one invocation of [update].
    - On a colliding pair, if the adversary is not alive after taking the
      projectile's damage, the score grows by exactly 10 times the level
      and the adversary leaves the collection; if it is still alive, the
      score is unchanged and it stays.
    - The whole player-bullet pass therefore adds exactly 10 times the
      level for each adversary it removes.
    - Over the whole invocation the score grows by exactly 10 times the
      level times the number of adversaries removed by the player-bullet
      pass: adversaries that were removed for having left the screen (they
      are gone in [pruned], where the score is still the old one) and the
      adversaries cleared by a level transition add nothing. *)
Theorem score_accounting this w :
  let this' := (update this w).1 in
  let eliminated :=
    if running this w
    then Z.of_nat (length (enemies (pruned this w))) - Z.of_nat (length (enemies this'))
    else 0 in
  score this' = score this + 10 * level this * eliminated
  /\ 0 <= eliminated
  /\ score (pruned this w) = score this
  /\ score (nextLevel this w).1 = score this
  /\ score (removeOffScreenEnemies this) = score this
  /\ (forall s,
        score (resolvePlayerBullets s)
        = score s + 10 * level s
                    * (Z.of_nat (length (enemies s))
                       - Z.of_nat (length (enemies (resolvePlayerBullets s)))))
  /\ (forall b bi a k s,
        enemies s !! k = Some a ->
        bulletEnemyCollision b a = true ->
        let a' := Enemy_takeDamage (Bullet.damage b) a in
        let s' := hitEnemy b bi a k s in
        (Enemy_isAlive a' = false ->
           score s' = score s + 10 * level s /\ enemies s' = delete k (enemies s))
        /\ (Enemy_isAlive a' = true ->
           score s' = score s /\ enemies s' = <[k := a']> (enemies s))).
Proof.
  intros this' eliminated.
  assert (Hpruned : score (pruned this w) = score this
                    /\ level (pruned this w) = level this).
  { unfold pruned.
    destruct (updateWorld_after_spawn (timeAt w) this (afterClockRead w)) as [Hf Hs].
    split; [exact Hs|].
    apply (f_equal (fun x => x.1.1.1.1.1.1.1.1)) in Hf. cbn [fst frame] in Hf.
    rewrite Hf, spawnEnemies_gameState. reflexivity. }
  assert (Hmain : score this' = score this + 10 * level this * eliminated
                  /\ 0 <= eliminated).
  { subst this' eliminated. destruct (running this w) eqn:Hr.
    - destruct (running_true this w Hr) as (Hp & Ho & Hd).
      rewrite (update_running this w Hp Ho Hd).
      destruct Hpruned as [Hs Hl]. unfold pruned in *.
      destruct (updateWorld _ _ _) as [s w']. cbn [fst] in *.
      destruct (resolveEnemyBullets_frame (resolvePlayerBullets s)) as (_ & Es & Ee).
      destruct (resolvePlayerBullets_score s) as [Ps Pn].
      unfold refreshPlayerHealth. cbn [gameState set_gameState enemies
        set_playerHealth GameState.score].
      rewrite Es, Ee, Ps, Hs, Hl. split; lia.
    - rewrite update_not_running by exact Hr. split; lia. }
  destruct Hmain as [H1 H2]. destruct Hpruned as [H3 _].
  split; [exact H1|]. split; [exact H2|]. split; [exact H3|].
  split; [apply nextLevel_score|]. split; [reflexivity|].
  split; [intros s; apply resolvePlayerBullets_score|].
  intros b bi a k s Hk Hc. exact (hitEnemy_hit b bi a k s Hk Hc).
Qed.

(** *** The spawn interval *)

Lemma spawns_true this w :
  spawns this w = true ->
  running this w = true /\ spawnInterval this <= timeAt w - lastSpawnTime this.
Proof.
  unfold spawns. intros H. apply andb_prop in H as [H1 H2].
  split; [exact H1 | apply Z.leb_le, H2].
Qed.

Lemma update_spawnInterval_running this w :
  running this w = true ->
  spawnInterval (update this w).1
    = spawnInterval (spawnEnemies (timeAt w) this (afterClockRead w)).1
  /\ level (update this w).1 = level this.
Proof.
  intros Hr. destruct (running_true this w Hr) as (Hp & Ho & Hd).
  pose proof (update_running_frame this w Hp Ho Hd) as Hf.
  split; [|apply update_level_same, Hd].
  apply (f_equal snd) in Hf. exact Hf.
Qed.

(** C6.  Whatever the engine state (that is, however many spawns came
    before), an invocation of [update] that performs the spawn step at
    level [w] leaves [max 800 (2000 - (w - 1) * 200)] in the spawn
    interval; the same holds of a direct call of [spawnEnemies] whose
    condition is met, and of the spawn that follows any number [n] of
    earlier invocations. *)
Theorem spawnInterval_after_spawn this w :
  spawns this w = true ->
  spawnInterval (update this w).1 = Z.max 800 (2000 - (level this - 1) * 200)
  /\ level (update this w).1 = level this
  /\ (forall t w',
        spawnInterval this <= t - lastSpawnTime this ->
        spawnInterval (spawnEnemies t this w').1
          = Z.max 800 (2000 - (level this - 1) * 200))
  /\ (forall n this0 w0,
        let s := updates n this0 w0 in
        spawns s.1 s.2 = true ->
        spawnInterval (update s.1 s.2).1 = Z.max 800 (2000 - (level s.1 - 1) * 200)).
Proof.
  assert (Hgen : forall this w, spawns this w = true ->
            spawnInterval (update this w).1
              = Z.max 800 (2000 - (level this - 1) * 200)).
  { clear this w. intros this w Hs. destruct (spawns_true this w Hs) as [Hr Hle].
    destruct (update_spawnInterval_running this w Hr) as [-> _].
    apply spawnEnemies_due, Hle. }
  intros Hs. split; [apply Hgen, Hs|].
  split; [apply update_spawnInterval_running, (spawns_true this w Hs)|].
  split.
  - intros t w' Hle. apply spawnEnemies_due, Hle.
  - intros n this0 w0 s. apply Hgen.
Qed.

(** C10.  Neither [nextLevel] nor [reset] assigns the spawn interval.
    In the engine [this'] that either of them returns, the next call of the
    spawn step is therefore gated by the interval stored before: it does
    nothing while the time since the (freshly reset) spawn timer is below
    the old interval, and once it is reached the step runs and only then
    stores the value for the level of [this']. *)
Theorem spawnInterval_survives_transition_and_reset this w :
  spawnInterval (nextLevel this w).1 = spawnInterval this
  /\ spawnInterval (reset this w).1 = spawnInterval this
  /\ forall this',
       this' = (nextLevel this w).1 \/ this' = (reset this w).1 ->
       forall t w',
         (t - lastSpawnTime this' < spawnInterval this ->
            spawnEnemies t this' w' = (this', w'))
         /\ (spawnInterval this <= t - lastSpawnTime this' ->
            spawnInterval (spawnEnemies t this' w').1
              = Z.max 800 (2000 - (level this' - 1) * 200)).
Proof.
  assert (Hn : spawnInterval (nextLevel this w).1 = spawnInterval this).
  { rewrite nextLevel_unfold. destruct (level this <? 3); reflexivity. }
  assert (Hr : spawnInterval (reset this w).1 = spawnInterval this) by reflexivity.
  split; [exact Hn|]. split; [exact Hr|].
  intros this' Hthis' t w'.
  assert (Hi : spawnInterval this' = spawnInterval this).
  { destruct Hthis' as [-> | ->]; assumption. }
  rewrite <- Hi. split.
  - apply spawnEnemies_idle.
  - intros Hle. apply spawnEnemies_due, Hle.
Qed.

(** *** The level stays between 1 and 3 *)

Lemma nextLevel_level this w :
  level (nextLevel this w).1 = if level this <? 3 then level this + 1 else level this.
Proof. rewrite nextLevel_unfold. destruct (level this <? 3); reflexivity. Qed.

Lemma update_elapsed this w :
  GameState.isPaused (gameState this) = false ->
  GameState.isGameOver (gameState this) = false ->
  durationElapsed (timeAt w - GameState.levelStartTime (gameState this))
                  (GameState.levelDuration (gameState this)) = true ->
  update this w = nextLevel this (afterClockRead w).
Proof.
  intros Hp Ho Hd. unfold update. rewrite Hp, Ho. simpl.
  unfold bind, afterClockRead, timeAt in *. simpl. rewrite Hd. reflexivity.
Qed.

Lemma update_level this w :
  level (update this w).1 = level this
  \/ (level this < 3 /\ level (update this w).1 = level this + 1).
Proof.
  destruct (durationElapsed (timeAt w - GameState.levelStartTime (gameState this))
              (GameState.levelDuration (gameState this))) eqn:Hd;
    [|left; apply update_level_same, Hd].
  destruct (GameState.isPaused (gameState this)) eqn:Hp.
  { left. rewrite update_halted by (rewrite Hp; reflexivity). reflexivity. }
  destruct (GameState.isGameOver (gameState this)) eqn:Ho.
  { left. rewrite update_halted by (rewrite Hp, Ho; reflexivity). reflexivity. }
  rewrite (update_elapsed this w Hp Ho Hd), nextLevel_level.
  destruct (Z.ltb_spec (level this) 3); [right; split; [assumption|reflexivity] | left; reflexivity].
Qed.

(** C7.  The level is 1 after construction and after every [reset];
    [nextLevel] increments it only when it is below 3, [update] changes it
    only by such an increment, and [shoot] does not touch it; hence in
    every reachable engine state the level is 1, 2 or 3. *)
Theorem level_in_range :
  (forall canvasWidth canvasHeight w,
      level (GameEngine_new canvasWidth canvasHeight w).1 = 1)
  /\ (forall this w, level (reset this w).1 = 1)
  /\ (forall this w,
        level (nextLevel this w).1
        = if level this <? 3 then level this + 1 else level this)
  /\ (forall this w,
        level (update this w).1 = level this
        \/ (level this < 3 /\ level (update this w).1 = level this + 1))
  /\ (forall this, level (shoot this) = level this)
  /\ (forall this, Reachable this -> level this = 1 \/ level this = 2 \/ level this = 3).
Proof.
  split; [reflexivity|]. split; [reflexivity|].
  split; [apply nextLevel_level|]. split; [apply update_level|].
  split; [reflexivity|].
  intros this Hr.
  assert (H : 1 <= level this <= 3); [|lia].
  induction Hr as [cw ch w | this w _ IH | this w _ IH | this _ IH | this w _ IH
                  | this _ IH | this _ IH | this _ IH].
  - simpl. lia.
  - destruct (update_level this w) as [-> | [Hlt ->]]; lia.
  - rewrite nextLevel_level. destruct (Z.ltb_spec (level this) 3); lia.
  - exact IH.
  - simpl. lia.
  - exact IH.
  - exact IH.
  - exact IH.
Qed.

(** *** Firing *)

(** C9.  In every engine state, paused and over included, [shoot] returns
    the engine with exactly one projectile appended: owned by the
    defender, placed at the defender's centre, with velocity (8, 0), size
    10 by 10 and damage 20.  Every other field is as it was; nothing is
    compared with a clock, so no rate limit applies. *)
Theorem shoot_appends_one_bullet this :
  let center := Base_getCenter (base this) in
  shoot this =
    mkEngine (base this) (enemies this)
      (bullets this
       ++ [Bullet.mk (Position.x center) (Position.y center) 8 0 10 10 true 20])
      (gameState this) (canvasWidth this) (canvasHeight this)
      (lastSpawnTime this) (spawnInterval this)
  /\ length (bullets (shoot this)) = S (length (bullets this))
  /\ shoot (shoot this) =
       mkEngine (base this) (enemies this)
         (bullets this
          ++ [Bullet.mk (Position.x center) (Position.y center) 8 0 10 10 true 20;
              Bullet.mk (Position.x center) (Position.y center) 8 0 10 10 true 20])
         (gameState this) (canvasWidth this) (canvasHeight this)
         (lastSpawnTime this) (spawnInterval this).
Proof.
  intros center. split; [reflexivity|]. split.
  - unfold shoot, push. simpl. rewrite length_app. simpl. lia.
  - unfold shoot, push. simpl. rewrite <- app_assoc. reflexivity.
Qed.

(** *** The factory *)

Lemma get_None configs t :
  t ∉ EnemyFactory.keys configs -> EnemyFactory.get configs t = None.
Proof.
  induction configs as [|[k c] rest IH]; intros Hn; [reflexivity|].
  simpl in *. apply not_elem_of_cons in Hn as [Hne Hn].
  destruct (decide (k = t)) as [->|_]; [contradiction | apply IH, Hn].
Qed.

(** C8.  A level has a table exactly when it is 1, 2 or 3.  For a level
    without a table, [getEnemyTypesForLevel] returns the empty list and
    [createRandomEnemy] returns no enemy (and draws no random number); for
    an enemy type that is not among the types of the level,
    [createEnemy] returns no enemy.  All three are plain values: none of
    these calls fails. *)
Theorem factory_absence_is_null level :
  (EnemyFactory.enemyConfigs level = None <-> level <> 1 /\ level <> 2 /\ level <> 3)
  /\ (EnemyFactory.enemyConfigs level = None ->
        EnemyFactory.getEnemyTypesForLevel level = []
        /\ forall canvasWidth canvasHeight w,
             EnemyFactory.createRandomEnemy level canvasWidth canvasHeight w = (None, w))
  /\ (forall t canvasWidth canvasHeight w,
        t ∉ EnemyFactory.getEnemyTypesForLevel level ->
        EnemyFactory.createEnemy t level canvasWidth canvasHeight w = (None, w)).
Proof.
  split; [|split].
  - unfold EnemyFactory.enemyConfigs.
    destruct level as [|[[|[]|]|[]|]|]; split; intros H; try discriminate;
      try reflexivity; try lia; repeat split; discriminate.
  - intros Hn. unfold EnemyFactory.getEnemyTypesForLevel,
      EnemyFactory.createRandomEnemy. rewrite Hn. split; reflexivity.
  - intros t cw ch w Hn.
    unfold EnemyFactory.getEnemyTypesForLevel, EnemyFactory.createEnemy in *.
    destruct (EnemyFactory.enemyConfigs level) as [configs|]; [|reflexivity].
    rewrite (get_None configs t Hn). reflexivity.
Qed.

(** *** Random choice *)

Lemma Math_random_range w : (0 <= (Math_random w).1 /\ (Math_random w).1 < 1)%Q.
Proof.
  unfold Math_random. cbn [fst]. destruct (entropy w (entropy_reads w)) as [p q].
  unfold Qle, Qlt, Qminus, Qplus, Qopp, inject_Z, Qfloor. cbn [Qnum Qden].
  pose proof (Z.div_mod p (Z.pos q) ltac:(lia)) as Hdm.
  pose proof (Z.mod_pos_bound p (Z.pos q) ltac:(lia)) as Hb.
  rewrite !Pos2Z.inj_mul. split; lia.
Qed.

Lemma random_index_range (r : Q) (n : Z) :
  (0 <= r)%Q -> (r < 1)%Q -> 0 < n -> 0 <= Qfloor (r * inject_Z n) < n.
Proof.
  intros Hlo Hhi Hn.
  assert (Hn' : (0 < inject_Z n)%Q) by (unfold Qlt; cbn [inject_Z Qnum Qden]; lia).
  split.
  - change 0 with (Qfloor 0). apply Qfloor_resp_le.
    apply Qmult_le_0_compat; [exact Hlo | apply Qlt_le_weak, Hn'].
  - apply Z.lt_nge. intros Hge.
    assert (Hge' : (inject_Z n <= inject_Z (Qfloor (r * inject_Z n)))%Q)
      by (unfold Qle; cbn [inject_Z Qnum Qden]; lia).
    clear Hge; rename Hge' into Hge.
    pose proof (Qfloor_le (r * inject_Z n)) as Hf.
    assert (Hlt : (r * inject_Z n < inject_Z n)%Q).
    { assert (H1 : (r * inject_Z n < 1 * inject_Z n)%Q)
        by (apply Qmult_lt_compat_r; assumption).
      rewrite Qmult_1_l in H1. exact H1. }
    apply (Qlt_irrefl (inject_Z n)).
    eapply Qle_lt_trans; [|exact Hlt]. eapply Qle_trans; eassumption.
Qed.

(** At each of the three levels [createRandomEnemy] does construct an
    enemy, from a configuration of that level. *)
Lemma createRandomEnemy_constructs lv canvasWidth canvasHeight w :
  lv = 1 \/ lv = 2 \/ lv = 3 ->
  exists config,
    EnemyConfig.level config = lv
    /\ EnemyFactory.createRandomEnemy lv canvasWidth canvasHeight w
       = let (e, w') := Enemy_new config canvasWidth canvasHeight (Math_random w).2 in
         (Some e, w').
Proof.
  intros Hlv. unfold EnemyFactory.createRandomEnemy.
  destruct (Math_random_range w) as [Hlo Hhi].
  destruct Hlv as [-> | [-> | ->]]; cbn [EnemyFactory.enemyConfigs]; unfold bind;
    destruct (Math_random w) as [r w1]; cbn [fst snd] in *.
  - change (Z.of_nat (length _)) with 4.
    pose proof (random_index_range r 4 Hlo Hhi eq_refl) as Hi.
    remember (Qfloor (r * inject_Z 4)) as i eqn:Ei. clear Ei.
    assert (Hc : i = 0 \/ i = 1 \/ i = 2 \/ i = 3) by lia.
    destruct Hc as [-> | [-> | [-> | ->]]]; cbn;
      eexists; (split; [|reflexivity]); reflexivity.
  - change (Z.of_nat (length _)) with 2.
    pose proof (random_index_range r 2 Hlo Hhi eq_refl) as Hi.
    remember (Qfloor (r * inject_Z 2)) as i eqn:Ei. clear Ei.
    assert (Hc : i = 0 \/ i = 1) by lia.
    destruct Hc as [-> | ->]; cbn;
      eexists; (split; [|reflexivity]); reflexivity.
  - change (Z.of_nat (length _)) with 2.
    pose proof (random_index_range r 2 Hlo Hhi eq_refl) as Hi.
    remember (Qfloor (r * inject_Z 2)) as i eqn:Ei. clear Ei.
    assert (Hc : i = 0 \/ i = 1) by lia.
    destruct Hc as [-> | ->]; cbn;
      eexists; (split; [|reflexivity]); reflexivity.
Qed.

(** *** Two places where the passes of [update] do more, or less, than
    remove what was hit *)

(** The inner iteration does not stop at the first match: a defender
    projectile under which two adversaries stand damages both, whatever the
    three collaborating classes are, and each match removes whatever is
    then found at the projectile's index. *)
Lemma playerBulletStep_two_matches this b rest a1 a2 :
  bullets this = b :: rest ->
  enemies this = [a1; a2] ->
  Bullet.isPlayerBullet b = true ->
  bulletEnemyCollision b a1 = true ->
  bulletEnemyCollision b a2 = true ->
  Enemy_isAlive (Enemy_takeDamage (Bullet.damage b) a1) = true ->
  Enemy_isAlive (Enemy_takeDamage (Bullet.damage b) a2) = true ->
  playerBulletStep b 0 this =
    set_bullets (delete 0%nat rest)
      (set_enemies [Enemy_takeDamage (Bullet.damage b) a1;
                    Enemy_takeDamage (Bullet.damage b) a2] this).
Proof.
  intros Hb He Hp Hc1 Hc2 Hl1 Hl2.
  destruct this as [d es bs g cw ch ls si]. simpl in *. subst es bs.
  unfold playerBulletStep. rewrite Hp. unfold forEach. simpl.
  assert (H1 : forall s, enemies s = [a1; a2] ->
            hitEnemy b 0 a1 0 s =
              set_bullets (delete 0%nat (bullets s))
                (set_enemies [Enemy_takeDamage (Bullet.damage b) a1; a2] s)).
  { intros s Hs. unfold hitEnemy, setEnemy, splice1.
    rewrite Hc1, Hl1, Hs. reflexivity. }
  rewrite !H1 by reflexivity. simpl.
  unfold hitEnemy. rewrite Hc2, Hl2. reflexivity.
Qed.

(** Nothing in [update] removes an adversary for being dead: a melee
    adversary that struck the defender is still in the collection at the
    end of the invocation unless it is also off screen, whatever the three
    collaborating classes are. *)
Lemma update_keeps_struck_enemy this w a :
  running this w = true ->
  timeAt w - lastSpawnTime this < spawnInterval this ->
  enemies this = [a] ->
  bullets this = [] ->
  let a1 := Enemy_update (canvasWidth this) (canvasHeight this) a in
  Enemy_canShoot (timeAt w) a1 = false ->
  EnemyConfig.canShoot (Enemy_config a1) = false ->
  enemyBaseCollision a1 (base this) = true ->
  Enemy_isOffScreen (Enemy_takeDamage 100 a1) = false ->
  enemies (update this w).1 = [Enemy_takeDamage 100 a1]
  /\ base (update this w).1 = Base_takeDamage 5 (base this).
Proof.
  intros Hr Hs He Hb a1 Hcs Hcfg Hcol Hoff.
  destruct (running_true this w Hr) as (Hp & Ho & Hd).
  rewrite (update_running this w Hp Ho Hd).
  unfold updateWorld, bind. rewrite (spawnEnemies_idle _ _ _ Hs).
  destruct this as [d es bs g cw ch ls si]. simpl in *. subst es bs.
  unfold updateEnemies, forEach. simpl. fold a1.
  rewrite Hcs. simpl. rewrite Hcfg, Hcol. simpl.
  unfold removeOffScreenEnemies. simpl. rewrite Hoff. simpl. split; reflexivity.
Qed.

(** ** Further properties of the engine, the factory and the callers *)

(** *** Passes that find nothing to do *)

Lemma forEach_id {S A} (arr : S -> list A) (f : A -> nat -> S -> S) (s : S) :
  (forall a k, arr s !! k = Some a -> f a k s = s) -> forEach arr f s = s.
Proof.
  intros Hf. unfold forEach. generalize (length (arr s)) 0%nat.
  intros n. induction n as [|n IH]; intros k; simpl; [reflexivity|].
  destruct (arr s !! k) as [a|] eqn:E; [rewrite (Hf a k E)|]; apply IH.
Qed.

(** *** Bullet movement *)

Lemma set_bullets_same (this : GameEngine) : set_bullets (bullets this) this = this.
Proof. destruct this. reflexivity. Qed.

Lemma moveBullets_from n : forall k this,
  (k + n)%nat = length (bullets this) ->
  forEach_from bullets moveBullet n k this
    = set_bullets (take k (bullets this) ++ map movedBullet (drop k (bullets this))) this.
Proof.
  induction n as [|n IH]; intros k this Hlen; simpl.
  - rewrite drop_ge, take_ge by lia. simpl. rewrite app_nil_r.
    symmetry. apply set_bullets_same.
  - destruct (bullets this !! k) as [b|] eqn:Hb.
    2: { apply lookup_ge_None in Hb. lia. }
    rewrite IH.
    2: { unfold moveBullet, setBullet. simpl. rewrite length_insert. lia. }
    unfold moveBullet, setBullet. simpl. fold (movedBullet b).
    rewrite (drop_S _ _ _ Hb). simpl.
    rewrite drop_insert_lt by lia.
    rewrite (take_S_r (<[k:=movedBullet b]> (bullets this)) k (movedBullet b)).
    2: { apply list_lookup_insert_eq. apply lookup_lt_Some in Hb. exact Hb. }
    rewrite take_insert_ge by lia. rewrite <- app_assoc. reflexivity.
Qed.

Lemma moveBullets_map this :
  moveBullets this = set_bullets (map movedBullet (bullets this)) this.
Proof.
  unfold moveBullets, forEach. rewrite moveBullets_from by reflexivity.
  rewrite take_0, drop_0. reflexivity.
Qed.

(** X1.  The movement pass advances every bullet exactly once by its
    velocity, keeps the bullets in their order and number, and changes
    nothing else in the engine. *)
Theorem moveBullets_moves_each_once this :
  moveBullets this = set_bullets (map movedBullet (bullets this)) this
  /\ length (bullets (moveBullets this)) = length (bullets this)
  /\ forall k, bullets (moveBullets this) !! k = movedBullet <$> bullets this !! k.
Proof.
  rewrite moveBullets_map. split; [reflexivity|]. cbn. split.
  - apply length_map.
  - intros k. apply list_lookup_fmap.
Qed.

(** *** The enemy update keeps the collection in shape *)

Lemma updateEnemy_shape t a k s :
  length (enemies (updateEnemy t a k s).1) = length (enemies s.1)
  /\ bullets s.1 `prefix_of` bullets (updateEnemy t a k s).1
  /\ GameState.isGameOver (gameState (updateEnemy t a k s).1)
     = GameState.isGameOver (gameState s.1).
Proof.
  destruct s as [this w]. unfold updateEnemy.
  destruct (Enemy_canShoot _ _).
  - destruct (Enemy_shoot _ _ _) as [[[b|] e'] w'];
      destruct (negb _ && _); cbn; rewrite ?length_insert;
      (split; [reflexivity|split; [|reflexivity]]);
      try reflexivity; apply prefix_app_r; reflexivity.
  - destruct (negb _ && _); cbn; rewrite ?length_insert;
      (split; [reflexivity|split; reflexivity]).
Qed.

Lemma updateEnemies_shape t this w :
  length (enemies (updateEnemies t this w).1) = length (enemies this)
  /\ bullets this `prefix_of` bullets (updateEnemies t this w).1.
Proof.
  unfold updateEnemies.
  apply (forEach_inv (fun s => enemies s.1) (updateEnemy t)
           (fun s => length (enemies s.1) = length (enemies this)
                     /\ bullets this `prefix_of` bullets s.1)); [|split; reflexivity].
  intros a k s _ [Hl Hp]. destruct (updateEnemy_shape t a k s) as (El & Ep & _).
  split; [congruence | etransitivity; eassumption].
Qed.

(** X2.  The enemy update neither adds nor removes an adversary (a struck
    or a dead one included) and never removes or reorders a bullet: the
    bullets present before are a prefix of the bullets after, the shots of
    the adversaries being appended behind them; nor does it touch the
    score or the game-over flag. *)
Theorem updateEnemies_keeps_shape t this w :
  length (enemies (updateEnemies t this w).1) = length (enemies this)
  /\ bullets this `prefix_of` bullets (updateEnemies t this w).1
  /\ score (updateEnemies t this w).1 = score this
  /\ GameState.isGameOver (gameState (updateEnemies t this w).1)
     = GameState.isGameOver (gameState this).
Proof.
  destruct (updateEnemies_shape t this w) as [Hl Hp].
  destruct (updateEnemies_frame t this w) as [_ Hs].
  split; [exact Hl|]. split; [exact Hp|]. split; [exact Hs|].
  unfold updateEnemies.
  apply (forEach_frame (fun s => enemies s.1) (updateEnemy t)
           (fun s => GameState.isGameOver (gameState s.1))).
  intros a k s _. apply updateEnemy_shape.
Qed.

Lemma updateEnemies_isGameOver t this w :
  GameState.isGameOver (gameState (updateEnemies t this w).1)
  = GameState.isGameOver (gameState this).
Proof.
  unfold updateEnemies.
  apply (forEach_frame (fun s => enemies s.1) (updateEnemy t)
           (fun s => GameState.isGameOver (gameState s.1))).
  intros a k s _. apply updateEnemy_shape.
Qed.

(** *** At most one adversary more per invocation *)

Lemma spawnEnemies_length t this w :
  (length (enemies (spawnEnemies t this w).1) <= S (length (enemies this)))%nat.
Proof.
  unfold spawnEnemies. destruct (_ <=? _); [|simpl; lia].
  unfold bind. destruct (EnemyFactory.createRandomEnemy _ _ _ w) as [[e|] w']; simpl.
  - unfold push. rewrite length_app. simpl. lia.
  - lia.
Qed.

Lemma updateWorld_length t this w :
  (length (enemies (updateWorld t this w).1) <= S (length (enemies this)))%nat.
Proof.
  unfold updateWorld, bind.
  pose proof (spawnEnemies_length t this w) as Hs.
  destruct (spawnEnemies t this w) as [s1 w1]. cbn [fst] in Hs.
  pose proof (updateEnemies_shape t s1 w1) as [Hu _].
  destruct (updateEnemies t s1 w1) as [s2 w2]. cbn [fst] in *.
  destruct (moveBullets_frame s2) as (_ & _ & Hm).
  unfold removeOffScreenEnemies, removeOffScreenBullets. cbn.
  rewrite Hm. pose proof (List.filter_length_le
    (fun enemy => negb (Enemy_isOffScreen enemy)) (enemies s2)). lia.
Qed.

(** X3.  One invocation of [update], in any state, leaves at most one
    adversary more in the collection than it found. *)
Theorem update_adds_at_most_one_enemy this w :
  (length (enemies (update this w).1) <= S (length (enemies this)))%nat.
Proof.
  destruct (GameState.isPaused (gameState this) || GameState.isGameOver (gameState this))
    eqn:Hh.
  { rewrite update_halted by exact Hh. simpl. lia. }
  apply orb_false_elim in Hh as [Hp Ho].
  destruct (durationElapsed (timeAt w - GameState.levelStartTime (gameState this))
              (GameState.levelDuration (gameState this))) eqn:Hd.
  - rewrite (update_elapsed this w Hp Ho Hd), nextLevel_unfold.
    destruct (level this <? 3); simpl; lia.
  - rewrite (update_running this w Hp Ho Hd).
    pose proof (updateWorld_length (timeAt w) this (afterClockRead w)) as Hw.
    destruct (updateWorld _ _ _) as [s w']. cbn [fst] in *.
    destruct (resolveEnemyBullets_frame (resolvePlayerBullets s)) as (_ & _ & Ee).
    destruct (resolvePlayerBullets_score s) as [_ Pn].
    unfold refreshPlayerHealth. cbn [enemies set_gameState].
    rewrite Ee. lia.
Qed.

(** *** Bullets that remain are on screen *)

Lemma Qltb_lt (a b : Q) : Qltb a b = true <-> (a < b)%Q.
Proof.
  unfold Qltb. rewrite negb_true_iff. split.
  - intros H. apply Qnot_le_lt. intros Hle. apply Qle_bool_iff in Hle. congruence.
  - intros H. destruct (Qle_bool b a) eqn:E; [|reflexivity].
    apply Qle_bool_iff in E. exfalso. exact (Qlt_not_le _ _ H E).
Qed.

Lemma bulletOnScreen_spec this b :
  bulletOnScreen this b = true <->
  (-50 < Bullet.x b /\ Bullet.x b < canvasWidth this + 50
   /\ -50 < Bullet.y b /\ Bullet.y b < canvasHeight this + 50)%Q.
Proof.
  unfold bulletOnScreen. rewrite !andb_true_iff, !Qltb_lt. tauto.
Qed.

Lemma hitEnemy_bulletsAll W H P b bi a k s :
  bulletsAll W H P s -> bulletsAll W H P (hitEnemy b bi a k s).
Proof.
  intros (HW & HH & HF). unfold hitEnemy, bulletsAll.
  destruct (bulletEnemyCollision b a); [|auto].
  destruct (negb _); cbn; (split; [exact HW|split; [exact HH|]]);
    apply Forall_delete, HF.
Qed.

Lemma resolvePlayerBullets_bulletsAll W H P s :
  bulletsAll W H P s -> bulletsAll W H P (resolvePlayerBullets s).
Proof.
  apply forEach_inv. intros b bi s' _ Hs'. unfold playerBulletStep.
  destruct (Bullet.isPlayerBullet b); [|exact Hs'].
  revert Hs'. apply forEach_inv. intros a k s'' _. apply hitEnemy_bulletsAll.
Qed.

Lemma resolveEnemyBullets_bulletsAll W H P s :
  bulletsAll W H P s -> bulletsAll W H P (resolveEnemyBullets s).
Proof.
  apply forEach_inv. intros b bi s' _ (HW & HH & HF). unfold enemyBulletStep, bulletsAll.
  destruct (negb (Bullet.isPlayerBullet b)); [|auto].
  destruct (bulletBaseCollision _ _); [|auto].
  destruct (negb (Base_isAlive _)); cbn; (split; [exact HW|split; [exact HH|]]);
    apply Forall_delete, HF.
Qed.

Lemma updateWorld_bullets_on_screen t this w :
  let s := (updateWorld t this w).1 in
  Forall (fun b => bulletOnScreen s b = true) (bullets s).
Proof.
  unfold updateWorld, bind.
  destruct (spawnEnemies t this w) as [s1 w1].
  destruct (updateEnemies t s1 w1) as [s2 w2]. cbn.
  apply Forall_forall. intros b Hb. apply list_elem_of_In, filter_In in Hb. apply Hb.
Qed.

(** X4.  After an invocation of [update] that ran its passes, every bullet
    still in the collection lies strictly inside the play area widened by
    50 on each side. *)
Theorem update_leaves_bullets_on_screen this w :
  running this w = true ->
  Forall (fun b =>
            (-50 < Bullet.x b /\ Bullet.x b < canvasWidth this + 50
             /\ -50 < Bullet.y b /\ Bullet.y b < canvasHeight this + 50)%Q)
         (bullets (update this w).1).
Proof.
  intros Hr. destruct (running_true this w Hr) as (Hp & Ho & Hd).
  rewrite (update_running this w Hp Ho Hd).
  pose proof (updateWorld_bullets_on_screen (timeAt w) this (afterClockRead w)) as Hs.
  pose proof (updateWorld_after_spawn (timeAt w) this (afterClockRead w)) as [Hf _].
  pose proof (spawnEnemies_gameState (timeAt w) this (afterClockRead w)) as Hg.
  assert (Hdims : canvasWidth (updateWorld (timeAt w) this (afterClockRead w)).1
                  = canvasWidth this
                  /\ canvasHeight (updateWorld (timeAt w) this (afterClockRead w)).1
                     = canvasHeight this).
  { unfold frame in Hf. injection Hf as _ _ _ _ _ HW HH _ _.
    rewrite HW, HH. unfold spawnEnemies. destruct (_ <=? _); [|split; reflexivity].
    unfold bind.
    destruct (EnemyFactory.createRandomEnemy _ _ _ _) as [[e|] w']; split; reflexivity. }
  destruct (updateWorld _ _ _) as [s w']. cbn [fst] in *. destruct Hdims as [HW HH].
  assert (Hall : bulletsAll (canvasWidth this) (canvasHeight this)
                   (fun b => bulletOnScreen this b = true) s).
  { split; [exact HW|split; [exact HH|]].
    eapply Forall_impl; [exact Hs|]. intros b Hb. cbn in Hb.
    unfold bulletOnScreen in *. rewrite HW, HH in Hb. exact Hb. }
  apply resolvePlayerBullets_bulletsAll, resolveEnemyBullets_bulletsAll in Hall.
  destruct Hall as (_ & _ & Hall). unfold refreshPlayerHealth. cbn [bullets set_gameState].
  eapply Forall_impl; [exact Hall|]. intros b Hb. apply bulletOnScreen_spec, Hb.
Qed.

(** *** Bullets leave the screen *)

Lemma inject_Z_succ (m : nat) :
  (inject_Z (Z.of_nat (S m)) == inject_Z (Z.of_nat m) + 1)%Q.
Proof. rewrite Nat2Z.inj_succ. unfold Z.succ. rewrite inject_Z_plus. reflexivity. Qed.

Lemma flight_bullets this :
  bullets (flight this)
  = List.filter (bulletOnScreen this) (map movedBullet (bullets this))
  /\ canvasWidth (flight this) = canvasWidth this.
Proof.
  unfold flight. rewrite moveBullets_map. split; reflexivity.
Qed.

Lemma flight_rounds (v lo : Q) this m :
  Forall (fun b => (v <= Bullet.vx b /\ lo <= Bullet.x b)%Q) (bullets this) ->
  canvasWidth (Nat.iter m flight this) = canvasWidth this
  /\ Forall (fun b => (v <= Bullet.vx b
                       /\ lo + inject_Z (Z.of_nat m) * v <= Bullet.x b)%Q)
            (bullets (Nat.iter m flight this)).
Proof.
  intros H0. induction m as [|m [IHw IHb]].
  - split; [reflexivity|]. eapply Forall_impl; [exact H0|].
    intros b [Hv Hx]. split; [exact Hv|].
    change (inject_Z (Z.of_nat 0)) with 0%Q. lra.
  - change (Nat.iter (S m) flight this) with (flight (Nat.iter m flight this)).
    destruct (flight_bullets (Nat.iter m flight this)) as [Eb Ew].
    split; [rewrite Ew; exact IHw|]. rewrite Eb.
    apply Forall_forall. intros b Hb. apply list_elem_of_In, filter_In in Hb as [Hb _].
    apply in_map_iff in Hb as (b0 & <- & Hb0).
    rewrite Forall_forall in IHb. apply list_elem_of_In, IHb in Hb0 as [Hv Hx].
    cbn. split; [exact Hv|]. rewrite inject_Z_succ. lra.
Qed.

(** In exact arithmetic: if every bullet has a horizontal velocity of at
    least [v] and a position of at least [lo], then after [n >= 1] rounds
    with [lo + n * v] at or beyond the right margin no bullet is left. *)
Lemma flight_clears_exact (v lo : Q) this n :
  (0 < n)%nat ->
  Forall (fun b => (v <= Bullet.vx b /\ lo <= Bullet.x b)%Q) (bullets this) ->
  (canvasWidth this + 50 <= lo + inject_Z (Z.of_nat n) * v)%Q ->
  bullets (Nat.iter n flight this) = [].
Proof.
  intros Hn H0 Hfar. destruct n as [|m]; [lia|].
  destruct (flight_rounds v lo this m H0) as [Hw Hb].
  change (Nat.iter (S m) flight this) with (flight (Nat.iter m flight this)).
  destruct (flight_bullets (Nat.iter m flight this)) as [-> _].
  destruct (List.filter _ _) as [|b rest] eqn:E; [reflexivity|]. exfalso.
  assert (Hin : In b (List.filter (bulletOnScreen (Nat.iter m flight this))
                        (map movedBullet (bullets (Nat.iter m flight this)))))
    by (rewrite E; left; reflexivity).
  apply filter_In in Hin as [Hin Hon].
  apply bulletOnScreen_spec in Hon as (_ & Hx & _). rewrite Hw in Hx.
  apply in_map_iff in Hin as (b0 & <- & Hb0).
  rewrite Forall_forall in Hb. apply list_elem_of_In, Hb in Hb0 as [Hv Hlo].
  cbn in Hx. rewrite inject_Z_succ in Hfar. lra.
Qed.

(** X5.  Bullet movement followed by culling, repeated, for bullets whose
    horizontal position and velocity are integers of magnitude at most
    2^51 on a play area of integer width (there the additions of the code
    are exact): if every bullet has a velocity of at least [v] and a
    position of at least [lo], then after [n >= 1] rounds with
    [lo + n * v] at or beyond the right margin (canvas width plus 50) no
    bullet is left.  (For the bullets of [shoot], [v] is 8.) *)
Theorem flight_clears_bullets (v lo : Z) this n :
  (0 < n)%nat ->
  Forall (fun b => exactBullet b
                   /\ (inject_Z v <= Bullet.vx b /\ inject_Z lo <= Bullet.x b)%Q)
         (bullets this) ->
  exactWidth this ->
  (canvasWidth this + 50 <= inject_Z (lo + Z.of_nat n * v))%Q ->
  bullets (Nat.iter n flight this) = [].
Proof.
  intros Hn Hall _ Hfar.
  apply (flight_clears_exact (inject_Z v) (inject_Z lo) this n Hn).
  - eapply Forall_impl; [exact Hall|]. intros b [_ Hb]. exact Hb.
  - rewrite inject_Z_plus, inject_Z_mult in Hfar. exact Hfar.
Qed.

(** *** What [update] never assigns *)

Lemma spawnEnemies_frame t this w :
  let s := (spawnEnemies t this w).1 in
  gameState s = gameState this /\ base s = base this /\ bullets s = bullets this
  /\ canvasWidth s = canvasWidth this /\ canvasHeight s = canvasHeight this.
Proof.
  unfold spawnEnemies. destruct (_ <=? _); [|repeat split].
  unfold bind. destruct (EnemyFactory.createRandomEnemy _ _ _ w) as [[e|] w'];
    repeat split.
Qed.

(** X6.  In no state and at no time does [update] change the paused flag,
    the size of the play area or the maximal player health. *)
Theorem update_never_assigns this w :
  GameState.isPaused (gameState (update this w).1) = GameState.isPaused (gameState this)
  /\ GameState.maxPlayerHealth (gameState (update this w).1)
     = GameState.maxPlayerHealth (gameState this)
  /\ canvasWidth (update this w).1 = canvasWidth this
  /\ canvasHeight (update this w).1 = canvasHeight this.
Proof.
  destruct (GameState.isPaused (gameState this) || GameState.isGameOver (gameState this))
    eqn:Hh.
  { rewrite update_halted by exact Hh. repeat split. }
  apply orb_false_elim in Hh as [Hp Ho].
  destruct (durationElapsed (timeAt w - GameState.levelStartTime (gameState this))
              (GameState.levelDuration (gameState this))) eqn:Hd.
  - rewrite (update_elapsed this w Hp Ho Hd), nextLevel_unfold.
    destruct (level this <? 3); repeat split.
  - pose proof (update_running_frame this w Hp Ho Hd) as Hf.
    destruct (spawnEnemies_frame (timeAt w) this (afterClockRead w))
      as (Hg & _ & _ & HW & HH).
    unfold frame in Hf. rewrite Hg, HW, HH in Hf.
    injection Hf as _ H1 _ _ H2 H3 H4 _ _. auto.
Qed.

(** X7.  Game over is final short of a [reset]: whatever sequence of
    [update], [nextLevel], [shoot], pause toggles and moves follows a state
    whose game-over flag is set, the flag stays set. *)
Theorem gameOver_is_final this this' :
  Continues this this' ->
  GameState.isGameOver (gameState this) = true ->
  GameState.isGameOver (gameState this') = true.
Proof.
  intros Hc Ho. induction Hc as [this | this this' w _ IH | this this' w _ IH
                                | this this' _ IH | this this' _ IH
                                | this this' _ IH | this this' _ IH];
    try specialize (IH Ho); try assumption.
  - rewrite update_halted; [exact IH|]. rewrite IH. apply orb_true_r.
  - rewrite nextLevel_unfold. destruct (level this' <? 3); [exact IH | reflexivity].
Qed.

(** *** Melee never ends the game *)

Lemma pruned_isGameOver this w :
  GameState.isGameOver (gameState (pruned this w))
  = GameState.isGameOver (gameState this).
Proof.
  unfold pruned, updateWorld, bind.
  pose proof (spawnEnemies_gameState (timeAt w) this (afterClockRead w)) as Hg.
  destruct (spawnEnemies _ _ _) as [s1 w1]. cbn [fst] in Hg.
  pose proof (updateEnemies_isGameOver (timeAt w) s1 w1) as Hu.
  destruct (updateEnemies _ _ _) as [s2 w2]. cbn [fst] in *.
  rewrite moveBullets_map. cbn. rewrite Hu, Hg. reflexivity.
Qed.

(** X8.  The game-over flag is only ever set by an adversary's bullet (or
    by the end of level 3): an invocation of [update] that runs its passes
    and in which, after the culling, no bullet of an adversary is in the
    collection leaves the flag unset, whatever the melee strikes of that
    invocation did to the base. *)
Theorem melee_never_ends_the_game this w :
  running this w = true ->
  Forall (fun b => Bullet.isPlayerBullet b = true) (bullets (pruned this w)) ->
  GameState.isGameOver (gameState (update this w).1) = false.
Proof.
  intros Hr Hall. destruct (running_true this w Hr) as (Hp & Ho & Hd).
  rewrite (update_running this w Hp Ho Hd).
  pose proof (pruned_isGameOver this w) as Hg. rewrite Ho in Hg.
  unfold pruned in *. destruct (updateWorld _ _ _) as [s w']. cbn [fst] in *.
  set (P := fun s : GameEngine =>
              GameState.isGameOver (gameState s) = false
              /\ Forall (fun b => Bullet.isPlayerBullet b = true) (bullets s)).
  assert (H1 : P (resolvePlayerBullets s)).
  { apply (forEach_inv bullets playerBulletStep P); [|split; assumption].
    intros b bi s' _ Hs'. unfold playerBulletStep.
    destruct (Bullet.isPlayerBullet b); [|exact Hs'].
    revert Hs'. apply (forEach_inv enemies (hitEnemy b bi) P).
    intros a k s'' _ [Hg' Hf']. unfold hitEnemy, P.
    destruct (bulletEnemyCollision b a); [|split; assumption].
    destruct (negb _); cbn; (split; [exact Hg'|apply Forall_delete, Hf']). }
  assert (H2 : P (resolveEnemyBullets (resolvePlayerBullets s))).
  { revert H1. apply (forEach_inv bullets enemyBulletStep P).
    intros b bi s' Hb [Hg' Hf'].
    unfold enemyBulletStep.
    rewrite (Forall_lookup_1 _ _ _ _ Hf' Hb). cbn. split; assumption. }
  destruct H2 as [H2 _]. exact H2.
Qed.

(** *** A tick without collisions *)

(** X9.  If, after the culling, no bullet of the player overlaps an
    adversary and no bullet of an adversary overlaps the base, the two
    collision passes change nothing: the result of [update] is the culled
    state with the health mirror refreshed. *)
Theorem update_without_collisions this w :
  running this w = true ->
  (forall b a, b ∈ bullets (pruned this w) -> a ∈ enemies (pruned this w) ->
               Bullet.isPlayerBullet b = true -> bulletEnemyCollision b a = false) ->
  (forall b, b ∈ bullets (pruned this w) -> Bullet.isPlayerBullet b = false ->
             bulletBaseCollision b (base (pruned this w)) = false) ->
  (update this w).1 = refreshPlayerHealth (pruned this w).
Proof.
  intros Hr He Hb. destruct (running_true this w Hr) as (Hp & Ho & Hd).
  rewrite (update_running this w Hp Ho Hd).
  unfold pruned in *. destruct (updateWorld _ _ _) as [s w']. cbn [fst] in *.
  assert (H1 : resolvePlayerBullets s = s).
  { apply forEach_id. intros b bi Hbi. unfold playerBulletStep.
    destruct (Bullet.isPlayerBullet b) eqn:Hpb; [|reflexivity].
    apply forEach_id. intros a k Hk. unfold hitEnemy.
    rewrite (He b a); [reflexivity| | |exact Hpb];
      eapply list_elem_of_lookup_2; eassumption. }
  assert (H2 : resolveEnemyBullets s = s).
  { apply forEach_id. intros b bi Hbi. unfold enemyBulletStep.
    destruct (Bullet.isPlayerBullet b) eqn:Hpb; [reflexivity|]. cbn.
    rewrite (Hb b); [reflexivity| |exact Hpb].
    eapply list_elem_of_lookup_2; eassumption. }
  rewrite H1, H2. reflexivity.
Qed.

(** *** The spawn step when it is due *)

Lemma enemyConfigs_None lv :
  lv <> 1 -> lv <> 2 -> lv <> 3 -> EnemyFactory.enemyConfigs lv = None.
Proof.
  intros H1 H2 H3. unfold EnemyFactory.enemyConfigs.
  destruct lv as [|[[|[]|]|[]|]|]; try reflexivity; lia.
Qed.

(** X10.  When the spawn step is due it always resets the spawn timer.
    At level 1, 2 or 3 it appends exactly one adversary behind the ones
    present; at any other level it appends nothing and draws no random
    number, and the timer is reset all the same. *)
Theorem spawnEnemies_when_due t this w :
  spawnInterval this <= t - lastSpawnTime this ->
  let s := (spawnEnemies t this w).1 in
  lastSpawnTime s = t
  /\ (level this = 1 \/ level this = 2 \/ level this = 3 ->
      exists e, enemies s = enemies this ++ [e])
  /\ (level this <> 1 /\ level this <> 2 /\ level this <> 3 ->
      enemies s = enemies this /\ (spawnEnemies t this w).2 = w).
Proof.
  intros Hle. unfold spawnEnemies.
  destruct (Z.leb_spec (spawnInterval this) (t - lastSpawnTime this)); [|lia].
  unfold bind. split; [|split].
  - destruct (EnemyFactory.createRandomEnemy _ _ _ w) as [[e|] w']; reflexivity.
  - intros Hlv.
    destruct (createRandomEnemy_constructs (level this) (canvasWidth this)
                (canvasHeight this) w Hlv) as (config & _ & ->).
    destruct (Enemy_new _ _ _ _) as [e w']. exists e. reflexivity.
  - intros (H1 & H2 & H3). unfold EnemyFactory.createRandomEnemy.
    rewrite (enemyConfigs_None _ H1 H2 H3). split; reflexivity.
Qed.

(** *** [reset] against the constructor *)

(** X11.  [reset] returns the engine the constructor would build for the
    same play area at the same moment, except for the two private spawn
    fields: the spawn timer is set to a second clock reading (the
    constructor leaves it at 0) and the spawn interval is kept (the
    constructor starts it at 2000).  Nothing else of the old game
    survives. *)
Theorem reset_is_a_fresh_game this w :
  (reset this w).1
  = set_spawnInterval (spawnInterval this)
      (set_lastSpawnTime (clock w (S (clock_reads w)))
         (GameEngine_new (canvasWidth this) (canvasHeight this) w).1)
  /\ forall other,
       canvasWidth other = canvasWidth this ->
       canvasHeight other = canvasHeight this ->
       spawnInterval other = spawnInterval this ->
       reset other w = reset this w.
Proof.
  split; [reflexivity|].
  intros other HW HH HS. destruct other, this. cbn in HW, HH, HS. subst.
  reflexivity.
Qed.

(** *** The score *)

Lemma update_score_delta this w :
  exists k : nat, score (update this w).1 = score this + 10 * level this * Z.of_nat k.
Proof.
  destruct (running this w) eqn:Hr.
  - destruct (running_true this w Hr) as (Hp & Ho & Hd).
    rewrite (update_running this w Hp Ho Hd).
    destruct (updateWorld_after_spawn (timeAt w) this (afterClockRead w)) as [Hf Hs].
    pose proof (spawnEnemies_gameState (timeAt w) this (afterClockRead w)) as Hg.
    apply (f_equal (fun x => x.1.1.1.1.1.1.1.1)) in Hf. cbn [fst frame] in Hf.
    rewrite Hg in Hf.
    destruct (updateWorld _ _ _) as [s w']. cbn [fst] in *.
    destruct (resolveEnemyBullets_frame (resolvePlayerBullets s)) as (_ & Es & _).
    destruct (resolvePlayerBullets_score s) as [Ps Pn].
    exists (length (enemies s) - length (enemies (resolvePlayerBullets s)))%nat.
    unfold refreshPlayerHealth. cbn [gameState set_gameState set_playerHealth
      GameState.score].
    rewrite Es, Ps, Hs, Hf, Nat2Z.inj_sub by exact Pn. reflexivity.
  - exists 0%nat. rewrite update_not_running by exact Hr. lia.
Qed.

(** X12.  In every reachable state the score is a non-negative multiple
    of 10, and from a reachable state [update] never lowers it. *)
Theorem score_is_a_growing_multiple_of_ten this :
  Reachable this ->
  0 <= score this
  /\ (10 | score this)
  /\ forall w, score this <= score (update this w).1.
Proof.
  intros Hr.
  assert (H : 1 <= level this <= 3 /\ 0 <= score this /\ (10 | score this)).
  { induction Hr as [cw ch w | this w _ IH | this w _ IH | this _ IH | this w _ IH
                    | this _ IH | this _ IH | this _ IH];
      try exact IH.
    - cbn. repeat split; try lia. apply Z.divide_0_r.
    - destruct IH as (Hl & Hs & Hd).
      destruct (update_score_delta this w) as [k ->].
      split; [destruct (update_level this w) as [-> | [Hlt ->]]; lia|].
      split; [nia|].
      apply Z.divide_add_r; [exact Hd|].
      rewrite <- Z.mul_assoc. apply Z.divide_factor_l.
    - destruct IH as (Hl & Hs & Hd). rewrite nextLevel_level, nextLevel_score.
      split; [destruct (Z.ltb_spec (level this) 3); lia|]. split; assumption.
    - cbn. repeat split; try lia. apply Z.divide_0_r. }
  destruct H as (Hl & Hs & Hd). split; [exact Hs|]. split; [exact Hd|].
  intros w. destruct (update_score_delta this w) as [k ->]. nia.
Qed.

(** *** The factory on the types it knows *)

Lemma get_Some_elem configs t :
  t ∈ EnemyFactory.keys configs <-> exists c, EnemyFactory.get configs t = Some c.
Proof.
  induction configs as [|[k c] rest IH]; simpl.
  - split; [intros H; apply elem_of_nil in H; contradiction | intros [c H]; discriminate].
  - rewrite elem_of_cons, IH.
    destruct (decide (k = t)) as [->|Hne]; split; eauto.
    intros [H|H]; [congruence|exact H].
Qed.

(** X13.  [createEnemy] returns an enemy exactly for the types that
    [getEnemyTypesForLevel] lists for the level. *)
Theorem createEnemy_succeeds_iff_listed t lv canvasWidth canvasHeight w :
  (exists e w', EnemyFactory.createEnemy t lv canvasWidth canvasHeight w = (Some e, w'))
  <-> t ∈ EnemyFactory.getEnemyTypesForLevel lv.
Proof.
  unfold EnemyFactory.createEnemy, EnemyFactory.getEnemyTypesForLevel.
  destruct (EnemyFactory.enemyConfigs lv) as [configs|].
  - rewrite get_Some_elem. split.
    + intros (e & w' & H). destruct (EnemyFactory.get configs t) as [c|]; [eauto|].
      discriminate.
    + intros [c ->]. unfold bind. destruct (Enemy_new _ _ _ _) as [e w'].
      exists e, w'. reflexivity.
  - split; [intros (e & w' & H); discriminate | intros H; apply elem_of_nil in H].
    contradiction.
Qed.

(** X14.  The configuration table is consistent.  Every entry sits under
    the key of its own type and carries the level of its table, a positive
    health and a positive size; the entries of level 1 cannot shoot and
    the entries of levels 2 and 3 can, with a positive shoot interval; and
    every enemy type belongs to exactly one level. *)
Theorem enemy_table_is_consistent :
  (forall lv configs t c,
      EnemyFactory.enemyConfigs lv = Some configs ->
      EnemyFactory.get configs t = Some c ->
      EnemyConfig.type c = t
      /\ EnemyConfig.level c = lv
      /\ 0 < EnemyConfig.health c
      /\ (0 < EnemyConfig.width c)%Q /\ (0 < EnemyConfig.height c)%Q
      /\ EnemyConfig.canShoot c = negb (lv =? 1)
      /\ (EnemyConfig.canShoot c = true -> 0 < EnemyConfig.shootInterval c))
  /\ (forall t, exists lv,
        t ∈ EnemyFactory.getEnemyTypesForLevel lv
        /\ forall lv', t ∈ EnemyFactory.getEnemyTypesForLevel lv' -> lv' = lv).
Proof.
  split.
  - intros lv configs t c Hc Hg. unfold EnemyFactory.enemyConfigs in Hc.
    destruct lv as [|[[|[]|]|[]|]|]; try discriminate Hc;
      injection Hc as <-; destruct t; try discriminate Hg;
      injection Hg as <-; cbn; repeat split; try reflexivity; try lia;
      intros; try discriminate; lia.
  - assert (Hno : forall t lv',
              t ∈ EnemyFactory.getEnemyTypesForLevel lv' ->
              lv' = 1 \/ lv' = 2 \/ lv' = 3).
    { intros t lv' H. unfold EnemyFactory.getEnemyTypesForLevel,
        EnemyFactory.enemyConfigs in H.
      destruct lv' as [|[[|[]|]|[]|]|]; auto; apply elem_of_nil in H; contradiction. }
    intros t.
    destruct t; [exists 1|exists 1|exists 1|exists 1|exists 2|exists 2|exists 3|exists 3];
      (split;
       [ apply list_elem_of_In; cbn; tauto
       | intros lv' H; destruct (Hno _ _ H) as [-> | [-> | ->]]; try reflexivity;
         apply list_elem_of_In in H; cbn in H; intuition discriminate ]).
Qed.

(** X15.  At levels 1, 2 and 3 a random creation never misses: the index
    computed from [Math.random()] is always inside the list of keys, the
    key is always found, and the enemy is built from an entry of the table
    of that level, consuming exactly one random number before the
    constructor runs. *)
Theorem createRandomEnemy_never_misses lv canvasWidth canvasHeight w :
  lv = 1 \/ lv = 2 \/ lv = 3 ->
  exists config,
    EnemyConfig.level config = lv
    /\ EnemyConfig.type config ∈ EnemyFactory.getEnemyTypesForLevel lv
    /\ EnemyFactory.createRandomEnemy lv canvasWidth canvasHeight w
       = let (e, w') := Enemy_new config canvasWidth canvasHeight (Math_random w).2 in
         (Some e, w').
Proof.
  intros Hlv. unfold EnemyFactory.createRandomEnemy, EnemyFactory.getEnemyTypesForLevel.
  destruct (Math_random_range w) as [Hlo Hhi].
  destruct Hlv as [-> | [-> | ->]]; cbn [EnemyFactory.enemyConfigs]; unfold bind;
    destruct (Math_random w) as [r w1]; cbn [fst snd] in *.
  - change (Z.of_nat (length _)) with 4.
    pose proof (random_index_range r 4 Hlo Hhi eq_refl) as Hi.
    remember (Qfloor (r * inject_Z 4)) as i eqn:Ei. clear Ei.
    assert (Hc : i = 0 \/ i = 1 \/ i = 2 \/ i = 3) by lia.
    destruct Hc as [-> | [-> | [-> | ->]]]; cbn;
      (eexists; (split; [|split]); [| |reflexivity];
       [reflexivity | apply list_elem_of_In; cbn; tauto]).
  - change (Z.of_nat (length _)) with 2.
    pose proof (random_index_range r 2 Hlo Hhi eq_refl) as Hi.
    remember (Qfloor (r * inject_Z 2)) as i eqn:Ei. clear Ei.
    assert (Hc : i = 0 \/ i = 1) by lia.
    destruct Hc as [-> | ->]; cbn;
      (eexists; (split; [|split]); [| |reflexivity];
       [reflexivity | apply list_elem_of_In; cbn; tauto]).
  - change (Z.of_nat (length _)) with 2.
    pose proof (random_index_range r 2 Hlo Hhi eq_refl) as Hi.
    remember (Qfloor (r * inject_Z 2)) as i eqn:Ei. clear Ei.
    assert (Hc : i = 0 \/ i = 1) by lia.
    destruct Hc as [-> | ->]; cbn;
      (eexists; (split; [|split]); [| |reflexivity];
       [reflexivity | apply list_elem_of_In; cbn; tauto]).
Qed.

(** *** The shoot button *)

(** X16.  [handleShoot] either fires, that is, appends the one bullet of
    [shoot] and records the time it read, or changes nothing.  It fires
    only when the game is neither over nor paused and at least
    [SHOOT_COOLDOWN] (1500 ms) lie between the recorded time and the time
    read; hence a call that follows a firing call by less than 1500 ms
    changes nothing. *)
Theorem handleShoot_rate_limit ui w :
  let r := handleShoot ui w in
  (r.1 = ui
   \/ (r.1 = mkUI (shoot (gameEngine ui)) (timeAt w)
       /\ GameState.isGameOver (gameState (gameEngine ui)) = false
       /\ GameState.isPaused (gameState (gameEngine ui)) = false
       /\ 1500 <= timeAt w - lastShootTimeRef ui))
  /\ (lastShootTimeRef r.1 = timeAt w ->
      timeAt r.2 - timeAt w < 1500 ->
      (handleShoot r.1 r.2).1 = r.1).
Proof.
  assert (Hsoon : forall ui' w',
            timeAt w' - lastShootTimeRef ui' < 1500 -> (handleShoot ui' w').1 = ui').
  { intros ui' w' H. unfold handleShoot, bind, Date_now, timeAt in *. cbn [fst snd].
    destruct (Z.leb_spec SHOOT_COOLDOWN
                (clock w' (clock_reads w') - lastShootTimeRef ui'));
      [unfold SHOOT_COOLDOWN in *; lia|].
    rewrite andb_false_r. reflexivity. }
  intros r. split.
  - subst r. unfold handleShoot, bind, Date_now, timeAt. cbn [fst snd].
    destruct (negb (GameState.isGameOver _)) eqn:Ho; [|left; reflexivity].
    destruct (negb (GameState.isPaused _)) eqn:Hp; [|left; reflexivity].
    destruct (Z.leb_spec SHOOT_COOLDOWN
                (clock w (clock_reads w) - lastShootTimeRef ui)) as [Hc|Hc];
      [|left; reflexivity].
    right. cbn. apply negb_true_iff in Ho, Hp. unfold SHOOT_COOLDOWN in Hc. auto.
  - intros Hlast Hlt. apply Hsoon. rewrite Hlast. exact Hlt.
Qed.

(** *** The countdown *)

Lemma ceilDiv1000_spec x : 1000 * (ceilDiv1000 x - 1) < x <= 1000 * ceilDiv1000 x.
Proof.
  unfold ceilDiv1000.
  pose proof (Z.div_mod (- x) 1000 ltac:(lia)) as Hdm.
  pose proof (Z.mod_pos_bound (- x) 1000 ltac:(lia)) as Hb. lia.
Qed.

(** X17.  With a defined level duration the countdown shown to the player
    is a number of seconds that is never negative; it is 0 exactly when the
    level check of [update], made with the same clock reading, finds the
    level time elapsed; and while it is positive it is the remaining time
    rounded up to whole seconds. *)
Theorem levelTimeRemaining_agrees_with_level_check this w d :
  GameState.levelDuration (gameState this) = Some d ->
  let elapsed := timeAt w - GameState.levelStartTime (gameState this) in
  exists r,
    (levelTimeRemaining this w).1 = Some r
    /\ 0 <= r
    /\ (r = 0 <-> durationElapsed elapsed (GameState.levelDuration (gameState this)) = true)
    /\ (0 < r -> 1000 * (r - 1) < d - elapsed <= 1000 * r).
Proof.
  intros Hd elapsed. unfold levelTimeRemaining, bind, Date_now. cbn [fst ret].
  rewrite Hd. fold (timeAt w). fold elapsed.
  pose proof (ceilDiv1000_spec (d - elapsed)) as Hc.
  eexists. split; [reflexivity|]. split; [lia|]. split; [|lia].
  cbn [durationElapsed]. rewrite Z.leb_le. lia.
Qed.

End EngineFacts.

(** ** The mint endpoint *)

Section MintFacts.
Import MintApi.
Variable AbiItem : Type.
Variable CONTRACT_ADDRESS : option string.
Variable CONTRACT_ABI : option (list AbiItem).
Variable SBT_MINTER_PRIVATE_KEY : option string.
Variable isAddress : string -> bool.
Variable destructuringError : Thrown.

Lemma fail_shape st msg :
  success (fail st msg) = false /\ status (fail st msg) = st
  /\ txHash (fail st msg) = None /\ error (fail st msg) = Some msg.
Proof. repeat split. Qed.

Lemma onError_fails e :
  exists st msg,
    onError e = fail st msg /\ (st = 400 \/ st = 500) /\ msg <> ""%string.
Proof.
  unfold onError.
  destruct (match code e with Some c => String.eqb c "INSUFFICIENT_FUNDS" | None => false end).
  { eexists _, _. split; [reflexivity|]. split; [auto|discriminate]. }
  destruct (match errorMessage e with Some m => includes "user rejected" m | None => false end).
  { eexists _, _. split; [reflexivity|]. split; [auto|discriminate]. }
  destruct (errorMessage e) as [m|].
  - destruct (String.eqb_spec m ""); eexists _, _;
      (split; [reflexivity|]); (split; [auto|]); [discriminate|assumption].
  - eexists _, _. split; [reflexivity|]. split; [auto|discriminate].
Qed.

(** X18.  The endpoint answers with [success: true] exactly when it answers
    with status 200, and that happens only for a POST request with a
    non-empty address that [isAddress] accepts, with contract address, ABI
    and private key configured, after a receipt of status 1; the answer then
    carries the hash of that transaction.  Every other answer has
    [success: false], status 400, 405 or 500, no transaction hash and a
    non-empty error text. *)
Theorem mint_answers chain req :
  let r := (handler AbiItem CONTRACT_ADDRESS CONTRACT_ABI SBT_MINTER_PRIVATE_KEY
             isAddress chain destructuringError req) in
  (success r = true <-> status r = 200)
  /\ (success r = true ->
      accepted AbiItem CONTRACT_ADDRESS CONTRACT_ABI SBT_MINTER_PRIVATE_KEY isAddress req = true
      /\ exists key a hash,
           SBT_MINTER_PRIVATE_KEY = Some key /\ body req = Some (Some a)
           /\ chain key a = Receipt hash 1
           /\ txHash r = Some hash /\ error r = None)
  /\ (success r = false ->
      (status r = 400 \/ status r = 405 \/ status r = 500)
      /\ txHash r = None
      /\ exists msg, error r = Some msg /\ msg <> ""%string).
Proof.
  assert (Hfail : forall st msg (P : Prop),
            (st = 400 \/ st = 405 \/ st = 500) -> msg <> ""%string ->
            let r := fail st msg in
            (success r = true <-> status r = 200)
            /\ (success r = true -> P)
            /\ (success r = false ->
                (status r = 400 \/ status r = 405 \/ status r = 500)
                /\ txHash r = None
                /\ exists msg, error r = Some msg /\ msg <> ""%string)).
  { intros st msg P Hst Hmsg r. subst r. cbn. split; [|split].
    - split; [discriminate | intros ->; destruct Hst as [H|[H|H]]; discriminate H].
    - discriminate.
    - intros _. split; [exact Hst|]. split; [reflexivity|]. eauto. }
  assert (Herr : forall e (P : Prop),
            let r := onError e in
            (success r = true <-> status r = 200)
            /\ (success r = true -> P)
            /\ (success r = false ->
                (status r = 400 \/ status r = 405 \/ status r = 500)
                /\ txHash r = None
                /\ exists msg, error r = Some msg /\ msg <> ""%string)).
  { intros e P. destruct (onError_fails e) as (st & msg & -> & Hst & Hmsg).
    apply Hfail; [tauto | exact Hmsg]. }
  intros r. subst r. unfold handler.
  destruct (method req) as [m|] eqn:Hm; cbn [negb];
    [destruct (String.eqb m "POST") eqn:Em|]; cbn [negb];
    try (apply Hfail; [auto|discriminate]).
  destruct (body req) as [[a|]|] eqn:Hb;
    [| apply Hfail; [auto|discriminate] | apply Herr].
  destruct (String.eqb a "") eqn:Ea; [apply Hfail; [auto|discriminate]|].
  destruct (isAddress a) eqn:Ei; cbn [negb]; [|apply Hfail; [auto|discriminate]].
  destruct (truthy CONTRACT_ADDRESS) eqn:Ec; cbn [negb];
    [|apply Hfail; [auto|discriminate]].
  destruct CONTRACT_ABI as [abi|] eqn:Eabi;
    [destruct (length abi =? 0)%nat eqn:El|]; try (apply Hfail; [auto|discriminate]).
  destruct SBT_MINTER_PRIVATE_KEY as [key|] eqn:Ekey;
    [|apply Hfail; [auto|discriminate]].
  destruct (String.eqb key "") eqn:Ek; [apply Hfail; [auto|discriminate]|].
  destruct (chain key a) as [hash st|e] eqn:Hch; [|apply Herr].
  destruct (Z.eqb_spec st 1) as [->|Hne]; [|apply Hfail; [auto|discriminate]].
  cbn. split; [split; reflexivity|]. split; [|discriminate].
  intros _. split.
  - unfold accepted. rewrite Hm, Hb, Em, Ea, Ei, Ec, El. cbn. rewrite Ek. reflexivity.
  - exists key, a, hash. auto.
Qed.

(** X19.  The chain is asked only for an accepted request: when one of the
    checks fails (method, address present and well formed, contract address,
    ABI, private key), the answer is the same whatever the chain would have
    done; when all pass, the answer is decided by what the chain returns for
    the configured key and the address of the request. *)
Theorem mint_asks_the_chain_only_when_accepted req :
  (accepted AbiItem CONTRACT_ADDRESS CONTRACT_ABI SBT_MINTER_PRIVATE_KEY isAddress req = false ->
   forall chain1 chain2, (handler AbiItem CONTRACT_ADDRESS CONTRACT_ABI SBT_MINTER_PRIVATE_KEY
             isAddress chain1 destructuringError req)
     = (handler AbiItem CONTRACT_ADDRESS CONTRACT_ABI SBT_MINTER_PRIVATE_KEY
             isAddress chain2 destructuringError req))
  /\ (accepted AbiItem CONTRACT_ADDRESS CONTRACT_ABI SBT_MINTER_PRIVATE_KEY isAddress req = true ->
      exists key a,
        SBT_MINTER_PRIVATE_KEY = Some key /\ body req = Some (Some a)
        /\ forall chain,
             (handler AbiItem CONTRACT_ADDRESS CONTRACT_ABI SBT_MINTER_PRIVATE_KEY
             isAddress chain destructuringError req) =
               match chain key a with
               | Receipt hash receiptStatus =>
                   if receiptStatus =? 1
                   then mkResponse 200 true (Some "SBT minted successfully!"%string)
                                   (Some hash) None
                   else fail 500 "Transaction failed"
               | Throws e => onError e
               end).
Proof.
  unfold handler, accepted.
  destruct (method req) as [m|]; [destruct (String.eqb m "POST")|];
    destruct (body req) as [[a|]|]; cbn [negb andb];
    try (split; [intros _ ? ?; reflexivity|discriminate]).
  destruct (String.eqb a ""); cbn [negb andb];
    [split; [intros _ ? ?; reflexivity|discriminate]|].
  destruct (isAddress a); cbn [negb andb];
    [|split; [intros _ ? ?; reflexivity|discriminate]].
  destruct (truthy CONTRACT_ADDRESS); cbn [negb andb];
    [|split; [intros _ ? ?; reflexivity|discriminate]].
  destruct CONTRACT_ABI as [abi|]; [destruct (length abi =? 0)%nat|]; cbn [negb andb];
    try (split; [intros _ ? ?; reflexivity|discriminate]).
  destruct SBT_MINTER_PRIVATE_KEY as [key|]; cbn [truthy];
    [|split; [intros _ ? ?; reflexivity|discriminate]].
  destruct (String.eqb key ""); cbn [negb];
    [split; [intros _ ? ?; reflexivity|discriminate]|].
  split; [discriminate|]. intros _. exists key, a. auto.
Qed.

End MintFacts.

(** ** The token contract *)

Section ContractFacts.
Import BaseShooterSBT.
Variable Inherited : Type.
Variable owner : Inherited -> Z.
Variable _safeMint : Z -> Z -> Inherited * string -> option (Inherited * string).
Variable _setTokenURI : Z -> string -> Inherited -> option Inherited.

Lemma issue_app from l1 l2 :
  issue from (l1 ++ l2) = issue from l1 ++ issue (from + Z.of_nat (length l1)) l2.
Proof.
  revert from. induction l1 as [|a l1 IH]; intros from; cbn [issue app length].
  - rewrite Z.add_0_r. reflexivity.
  - rewrite IH. do 3 f_equal. lia.
Qed.

Lemma issue_length from l : length (issue from l) = length l.
Proof. revert from. induction l; intros; cbn; [reflexivity|]. rewrite IHl. reflexivity. Qed.

Lemma issue_fst from l : map fst (issue from l) = l.
Proof. revert from. induction l; intros; cbn; [reflexivity|]. rewrite IHl. reflexivity. Qed.

Lemma issue_range from l a id :
  (a, id) ∈ issue from l -> a ∈ l /\ from <= id < from + Z.of_nat (length l).
Proof.
  revert from. induction l as [|b l IH]; intros from H; cbn [issue] in H.
  - apply elem_of_nil in H. contradiction.
  - apply elem_of_cons in H as [H|H].
    + injection H as -> ->. split; [left|cbn [length]; lia].
    + apply IH in H as [H1 H2]. split; [right; exact H1|cbn [length]; lia].
Qed.

Lemma issue_covers from l id :
  from <= id < from + Z.of_nat (length l) -> exists a, (a, id) ∈ issue from l.
Proof.
  revert from. induction l as [|b l IH]; intros from H; cbn [issue length] in *; [lia|].
  destruct (Z.eq_dec id from) as [->|Hne].
  - exists b. left.
  - destruct (IH (from + 1)) as [a Ha]; [lia|]. exists a. right. exact Ha.
Qed.

Lemma issue_one_owner from l a b id :
  (a, id) ∈ issue from l -> (b, id) ∈ issue from l -> a = b.
Proof.
  revert from. induction l as [|c l IH]; intros from Ha Hb; cbn [issue] in *.
  - apply elem_of_nil in Ha. contradiction.
  - apply elem_of_cons in Ha as [Ha|Ha]; apply elem_of_cons in Hb as [Hb|Hb].
    + congruence.
    + injection Ha as -> ->. apply issue_range in Hb. lia.
    + injection Hb as -> ->. apply issue_range in Ha. lia.
    + eapply IH; eassumption.
Qed.

(** What one successful [mintTo] does. *)
Lemma mintTo_Some to s s' :
  mintTo Inherited _safeMint _setTokenURI to s = Some s' ->
  to <> 0
  /\ _tokenCounter Inherited s <> MAX_UINT256
  /\ _tokenCounter Inherited s' = _tokenCounter Inherited s + 1
  /\ (forall a, _tokensByOwner Inherited s' a
                = if a =? to
                  then _tokensByOwner Inherited s a ++ [_tokenCounter Inherited s]
                  else _tokensByOwner Inherited s a)
  /\ emitted Inherited s' = emitted Inherited s ++ [(to, _tokenCounter Inherited s)].
Proof.
  unfold mintTo. destruct (Z.eqb_spec to 0); [discriminate|].
  destruct (Z.eqb_spec (_tokenCounter Inherited s) MAX_UINT256); [discriminate|].
  destruct (_safeMint _ _ _) as [[inh uri]|]; [|discriminate].
  destruct (_setTokenURI _ _ _) as [inh'|]; [|discriminate].
  intros Heq. injection Heq as <-. cbn. auto.
Qed.

Lemma mintTo_consistent to s s' :
  mintTo Inherited _safeMint _setTokenURI to s = Some s' ->
  consistent Inherited s -> consistent Inherited s'.
Proof.
  intros Hm ((H0 & Hmax) & Hiss & Hlen & Hmem & Hnd & Hz).
  destruct (mintTo_Some to s s' Hm) as (Hto & Hnm & Hc & Ht & He).
  unfold consistent. rewrite Hc, He.
  split; [lia|]. split; [|split; [|split; [|split]]].
  - rewrite map_app, issue_app, <- Hiss, length_map. cbn [map fst issue].
    rewrite Z.add_0_l, Hlen. reflexivity.
  - rewrite length_app. cbn [length]. lia.
  - intros a id. rewrite Ht, elem_of_app, list_elem_of_singleton.
    destruct (Z.eqb_spec a to) as [->|Hne].
    + rewrite elem_of_app, list_elem_of_singleton, Hmem. split.
      * intros [H | ->]; auto.
      * intros [H|Heq]; [auto|]. injection Heq as ->. auto.
    + rewrite Hmem. split; [auto|]. intros [H|Heq]; [exact H|].
      injection Heq as Heq _. contradiction.
  - intros a. rewrite Ht. destruct (Z.eqb_spec a to) as [->|Hne]; [|apply Hnd].
    apply NoDup_app. split; [apply Hnd|]. split; [|apply NoDup_singleton].
    intros id Hid Hin. apply list_elem_of_singleton in Hin. subst id.
    apply Hmem in Hid. rewrite Hiss in Hid. apply issue_range in Hid.
    rewrite length_map in Hid. lia.
  - intros id Hin. apply elem_of_app in Hin as [Hin|Hin]; [exact (Hz id Hin)|].
    apply list_elem_of_singleton in Hin. injection Hin as Hin _. congruence.
Qed.

Lemma mintAll_Some recipients : forall s s',
  mintAll Inherited _safeMint _setTokenURI recipients s = Some s' ->
  Forall (fun to => to <> 0) recipients
  /\ _tokenCounter Inherited s' = _tokenCounter Inherited s + Z.of_nat (length recipients)
  /\ emitted Inherited s'
     = emitted Inherited s ++ issue (_tokenCounter Inherited s) recipients
  /\ (forall a, _tokensByOwner Inherited s' a
                = _tokensByOwner Inherited s a
                  ++ map snd (List.filter (fun p => p.1 =? a)
                                (issue (_tokenCounter Inherited s) recipients)))
  /\ (consistent Inherited s -> consistent Inherited s').
Proof.
  induction recipients as [|to rest IH]; intros s s' H; cbn [mintAll] in H.
  - injection H as <-. cbn. rewrite Z.add_0_r, app_nil_r.
    split; [constructor|]. split; [reflexivity|]. split; [reflexivity|].
    split; [intros a; rewrite app_nil_r; reflexivity | auto].
  - destruct (mintTo _ _ _ to s) as [s1|] eqn:Hm; [|discriminate].
    destruct (mintTo_Some to s s1 Hm) as (Hto & _ & Hc & Ht & He).
    destruct (IH s1 s' H) as (Hf & Hc' & He' & Ht' & Hcons).
    split; [constructor; assumption|].
    split; [rewrite Hc', Hc; cbn [length]; lia|].
    split; [rewrite He', He, Hc, <- app_assoc; reflexivity|].
    split.
    + intros a. rewrite Ht', Ht, Hc. cbn [issue List.filter fst].
      destruct (Z.eqb_spec to a) as [->|Hne].
      * rewrite Z.eqb_refl, <- app_assoc. reflexivity.
      * destruct (Z.eqb_spec a to); [congruence|]. reflexivity.
    + intros Hs. apply Hcons. eapply mintTo_consistent; eassumption.
Qed.

(** X20.  A call of [mint] that does not revert was made by the owner to a
    non-zero address; it raises the total supply by exactly one, gives the
    new token the old total supply as its id, appends that id to the list of
    the recipient, leaves every other list as it was, and emits one event
    for it. *)
Theorem mint_effect sender to s s' :
  mint Inherited owner _safeMint _setTokenURI sender to s = Some s' ->
  sender = owner (inherited Inherited s)
  /\ to <> 0
  /\ totalSupply Inherited s' = totalSupply Inherited s + 1
  /\ tokensOfOwner Inherited s' to
     = tokensOfOwner Inherited s to ++ [totalSupply Inherited s]
  /\ (forall a, a <> to -> tokensOfOwner Inherited s' a = tokensOfOwner Inherited s a)
  /\ emitted Inherited s' = emitted Inherited s ++ [(to, totalSupply Inherited s)].
Proof.
  unfold mint, totalSupply, tokensOfOwner.
  destruct (Z.eqb_spec sender (owner (inherited Inherited s))) as [Hs|]; [|discriminate].
  intros Hm. destruct (mintTo_Some to s s' Hm) as (Hto & _ & Hc & Ht & He).
  split; [exact Hs|]. split; [exact Hto|]. split; [exact Hc|].
  split; [rewrite Ht, Z.eqb_refl; reflexivity|]. split; [|exact He].
  intros a Hne. rewrite Ht. destruct (Z.eqb_spec a to); [contradiction|reflexivity].
Qed.

(** X21.  A call of [batchMint] that does not revert was made by the owner
    with between 1 and 100 recipients, none of them the zero address; it
    raises the total supply by the number of recipients and hands out the
    consecutive ids from the old total supply on, in the order of the
    recipients: one event each, and each recipient's list extended by its
    ids in that order. *)
Theorem batchMint_effect sender recipients s s' :
  batchMint Inherited owner _safeMint _setTokenURI sender recipients s = Some s' ->
  sender = owner (inherited Inherited s)
  /\ (1 <= length recipients <= 100)%nat
  /\ Forall (fun to => to <> 0) recipients
  /\ totalSupply Inherited s'
     = totalSupply Inherited s + Z.of_nat (length recipients)
  /\ emitted Inherited s'
     = emitted Inherited s ++ issue (totalSupply Inherited s) recipients
  /\ (forall a, tokensOfOwner Inherited s' a
                = tokensOfOwner Inherited s a
                  ++ map snd (List.filter (fun p => p.1 =? a)
                                (issue (totalSupply Inherited s) recipients))).
Proof.
  unfold batchMint, totalSupply, tokensOfOwner.
  destruct (Z.eqb_spec sender (owner (inherited Inherited s))) as [Hs|]; [|discriminate].
  destruct (Nat.eqb_spec (length recipients) 0); [discriminate|].
  destruct (Nat.ltb_spec 100 (length recipients)); [discriminate|].
  intros Hm. destruct (mintAll_Some recipients s s' Hm) as (Hf & Hc & He & Ht & _).
  split; [exact Hs|]. split; [lia|]. auto.
Qed.

(** X22.  In every state of a deployed contract the total supply is
    between 0 and the largest [uint256]; the ids below the total supply are
    exactly the ids found in the token lists; no id is in the lists of two
    addresses or twice in one list; the zero address has no token; and the
    events emitted are, in order, one per id from 0 on. *)
Theorem deployed_lists_are_consistent s :
  Deployed Inherited owner _safeMint _setTokenURI s ->
  0 <= totalSupply Inherited s <= MAX_UINT256
  /\ (forall id, 0 <= id < totalSupply Inherited s
                 <-> exists a, id ∈ tokensOfOwner Inherited s a)
  /\ (forall a b id, id ∈ tokensOfOwner Inherited s a ->
                     id ∈ tokensOfOwner Inherited s b -> a = b)
  /\ (forall a, NoDup (tokensOfOwner Inherited s a))
  /\ tokensOfOwner Inherited s 0 = []
  /\ emitted Inherited s = issue 0 (map fst (emitted Inherited s)).
Proof.
  intros Hd.
  assert (Hc : consistent Inherited s).
  { induction Hd as [inh uri | s sender to s' _ IH Hm | s sender rs s' _ IH Hm
                    | s sender uri s' _ IH Hm | s inh' _ IH].
    - unfold consistent, deploy, MAX_UINT256. cbn.
      split; [lia|]. split; [reflexivity|]. split; [reflexivity|].
      split; [intros a id; split; intros H; apply elem_of_nil in H; contradiction|].
      split; [intros a; apply NoDup_nil_2|]. intros id H. apply elem_of_nil in H.
      exact H.
    - unfold mint in Hm. destruct (_ =? _); [|discriminate].
      eapply mintTo_consistent; eassumption.
    - unfold batchMint in Hm. destruct (_ =? _); [|discriminate].
      destruct (_ =? _)%nat; [discriminate|]. destruct (_ <? _)%nat; [discriminate|].
      apply (mintAll_Some rs s s' Hm), IH.
    - unfold setBaseURI in Hm. destruct (_ =? _); [|discriminate].
      injection Hm as <-. exact IH.
    - exact IH. }
  destruct Hc as (Hr & Hiss & Hlen & Hmem & Hnd & Hz).
  unfold totalSupply, tokensOfOwner.
  split; [exact Hr|]. split; [|split; [|split; [exact Hnd|split; [|exact Hiss]]]].
  - intros id. split.
    + intros Hid. destruct (issue_covers 0 (map fst (emitted Inherited s)) id) as [a Ha].
      { rewrite length_map. lia. }
      exists a. apply Hmem. rewrite Hiss. exact Ha.
    + intros [a Ha]. apply Hmem in Ha. rewrite Hiss in Ha. apply issue_range in Ha.
      rewrite length_map in Ha. lia.
  - intros a b id Ha Hb. apply Hmem in Ha, Hb. rewrite Hiss in Ha, Hb.
    eapply issue_one_owner; eassumption.
  - destruct (_tokensByOwner Inherited s 0) as [|id l] eqn:E; [reflexivity|].
    exfalso. apply (Hz id), Hmem. rewrite E. left.
Qed.

End ContractFacts.

(** ** The engine run on concrete states *)

Module Examples.
Import Sample SpecModel.

(** The sample adversaries carry the first configuration of level 1. *)
Lemma starkent_in_table :
  EnemyFactory.enemyConfigs 1
  ≫= (fun configs => EnemyFactory.get configs STARKENT) = Some starkent.
Proof. reflexivity. Qed.


Lemma update_halted_is_noop_witness :
  @update BC EC CD pausedGame (worldAt 5000) = (pausedGame, worldAt 5000).
Proof.
  exact (proj1 (@update_halted_is_noop BC EC CD pausedGame (worldAt 5000)
                  (or_introl eq_refl))).
Defined.

(** C3.  One defender projectile, two adversaries under it: both lose 20
    health in the same invocation, and the second removal at the
    projectile's index takes an unrelated projectile out of the
    collection. *)
Theorem one_bullet_damages_two_enemies :
  let this' := (@update BC EC CD twoInLine (worldAt 1016)).1 in
  map ehealth (enemies twoInLine) = [30; 30]
  /\ length (bullets twoInLine) = 2%nat
  /\ map ehealth (enemies this') = [10; 10]
  /\ bullets this' = [].
Proof. vm_compute. repeat split. Qed.

(** C4.  A melee adversary in contact with the defender costs the defender
    5 health and takes 100 damage, but it is still in the collection after
    the invocation, and it strikes again in the next one. *)
Theorem melee_enemy_is_not_removed :
  let s1 := @update BC EC CD meleeContact (worldAt 1016) in
  let s2 := @update BC EC CD s1.1 s1.2 in
  bhealth (base meleeContact) = 100
  /\ bhealth (base s1.1) = 95
  /\ map ehealth (enemies s1.1) = [-70]
  /\ map enemyIsOffScreen (enemies s1.1) = [false]
  /\ bhealth (base s2.1) = 90
  /\ length (enemies s2.1) = 1%nat.
Proof. vm_compute. repeat split. Qed.

Lemma score_accounting_witness :
  GameState.score (gameState (@update BC EC CD oneKill (worldAt 1016)).1)
    = 0 + 10 * 2 * (1 - 0)
  /\ length (enemies oneKill) = 2%nat
  /\ length (enemies (@pruned BC EC CD oneKill (worldAt 1016))) = 1%nat
  /\ (let s' := @hitEnemy BC EC CD (playerBullet 418 120) 0 (enemyAt 398 100 10) 0
                  (@pruned BC EC CD oneKill (worldAt 1016)) in
      GameState.score (gameState s') = 0 + 10 * 2 /\ enemies s' = []).
Proof.
  pose proof (@score_accounting BC EC CD oneKill (worldAt 1016)) as H.
  destruct H as (Hs & _ & _ & _ & _ & _ & Hhit).
  split; [exact Hs|]. split; [reflexivity|]. split; [reflexivity|].
  exact (proj1 (Hhit (playerBullet 418 120) 0%nat (enemyAt 398 100 10) 0%nat
                     (@pruned BC EC CD oneKill (worldAt 1016)) eq_refl eq_refl)
               eq_refl).
Defined.

Lemma spawnInterval_after_spawn_witness :
  spawnInterval (@update BC EC CD dueToSpawn (worldAt 3000)).1 = 1800
  /\ length (enemies (@update BC EC CD dueToSpawn (worldAt 3000)).1) = 1%nat.
Proof.
  split; [|reflexivity].
  exact (proj1 (@spawnInterval_after_spawn BC EC CD dueToSpawn (worldAt 3000) eq_refl)).
Defined.

Lemma spawnInterval_survives_transition_and_reset_witness :
  let this' := (@nextLevel BC EC dueToSpawn (worldAt 60000)).1 in
  GameState.level (gameState this') = 3
  /\ spawnInterval this' = 2000
  /\ @spawnEnemies BC EC 61999 this' (worldAt 61999) = (this', worldAt 61999)
  /\ spawnInterval (@spawnEnemies BC EC 62000 this' (worldAt 62000)).1 = 1600.
Proof.
  destruct (@spawnInterval_survives_transition_and_reset BC EC
              dueToSpawn (worldAt 60000)) as (Hn & _ & Hgate).
  split; [reflexivity|]. split; [exact Hn|]. split.
  - refine (proj1 (Hgate _ (or_introl eq_refl) 61999 (worldAt 61999)) _).
    vm_compute. reflexivity.
  - refine (proj2 (Hgate _ (or_introl eq_refl) 62000 (worldAt 62000)) _).
    vm_compute. discriminate.
Defined.

Lemma level_in_range_witness :
  let this := (@update BC EC CD (@GameEngine_new BC EC 800 600 (worldAt 0)).1
                       (worldAt 30000)).1 in
  GameState.level (gameState this) = 1
  \/ GameState.level (gameState this) = 2
  \/ GameState.level (gameState this) = 3.
Proof.
  refine (proj2 (proj2 (proj2 (proj2 (proj2 (@level_in_range BC EC CD))))) _ _).
  apply Reachable_update, Reachable_new.
Defined.

Lemma factory_absence_is_null_witness :
  EnemyFactory.getEnemyTypesForLevel 7 = []
  /\ @EnemyFactory.createRandomEnemy EC 7 800 600 (worldAt 0) = (None, worldAt 0)
  /\ @EnemyFactory.createEnemy EC LINEA 1 800 600 (worldAt 0) = (None, worldAt 0).
Proof.
  destruct (@factory_absence_is_null EC 7) as (_ & Hnone & _).
  destruct (@factory_absence_is_null EC 1) as (_ & _ & Hother).
  split; [exact (proj1 (Hnone eq_refl))|].
  split; [exact (proj2 (Hnone eq_refl) 800%Q 600%Q (worldAt 0))|].
  apply Hother. intros Hin.
  repeat (apply elem_of_cons in Hin as [Hin|Hin]; [discriminate Hin|]).
  apply elem_of_nil in Hin. exact Hin.
Defined.

End Examples.

(** ** The further properties on concrete states *)

Module MoreExamples.
Import Sample SpecModel.

Lemma update_leaves_bullets_on_screen_witness :
  bullets (@update BC EC CD twoInFlight (worldAt 1016)).1 = [playerBullet 608 500]
  /\ Forall (fun b => (-50 < Bullet.x b /\ Bullet.x b < 800 + 50
                       /\ -50 < Bullet.y b /\ Bullet.y b < 600 + 50)%Q)
            (bullets (@update BC EC CD twoInFlight (worldAt 1016)).1).
Proof.
  split; [vm_compute; reflexivity|].
  exact (@update_leaves_bullets_on_screen BC EC CD twoInFlight (worldAt 1016) eq_refl).
Defined.

Lemma flight_clears_bullets_witness :
  bullets (Nat.iter 31 (@flight BC EC) twoInFlight) = [playerBullet 848 500]
  /\ bullets (Nat.iter 32 (@flight BC EC) twoInFlight) = [].
Proof.
  split; [vm_compute; reflexivity|].
  apply (@flight_clears_bullets BC EC 8 600 twoInFlight 32).
  - lia.
  - assert (Hpow : 2 ^ 51 = 2251799813685248) by reflexivity.
    repeat constructor.
    + exists 600, 8. rewrite Hpow. repeat split; lia.
    + unfold Qle; cbn; lia.
    + unfold Qle; cbn; lia.
    + exists 845, 8. rewrite Hpow. repeat split; lia.
    + unfold Qle; cbn; lia.
    + unfold Qle; cbn; lia.
  - exists 800. assert (Hpow : 2 ^ 51 = 2251799813685248) by reflexivity.
    rewrite Hpow. repeat split; lia.
  - unfold Qle; cbn; lia.
Defined.

Lemma gameOver_is_final_witness :
  GameState.isGameOver
    (gameState (@handlePause BC EC
                  (@shoot BC EC (@update BC EC CD overGame (worldAt 50000)).1)))
  = true.
Proof.
  apply (@gameOver_is_final BC EC CD overGame); [|reflexivity].
  apply Continues_handlePause, Continues_shoot, Continues_update, Continues_here.
Defined.

Lemma melee_never_ends_the_game_witness :
  bhealth (base (@update BC EC CD lastStand (worldAt 1016)).1) = 0
  /\ GameState.isGameOver (gameState (@update BC EC CD lastStand (worldAt 1016)).1)
     = false.
Proof.
  split; [vm_compute; reflexivity|].
  apply (@melee_never_ends_the_game BC EC CD lastStand (worldAt 1016)).
  - reflexivity.
  - vm_compute. constructor.
Defined.

Lemma update_without_collisions_witness :
  (@update BC EC CD nearMisses (worldAt 1016)).1
  = engine (baseInit 800 600)
           [SpecModel.mkEnemy linea 397 100 50 1000]
           [playerBullet 388 200; Bullet.mk 296 290 (-4) 0 8 8 false 10]
           (gs 2 100 false false) 1000.
Proof.
  rewrite (@update_without_collisions BC EC CD nearMisses (worldAt 1016)).
  - vm_compute. reflexivity.
  - reflexivity.
  - intros b a Hb Ha Hp. vm_compute in Hb, Ha.
    apply list_elem_of_singleton in Ha. subst a.
    apply elem_of_cons in Hb as [-> | Hb].
    + vm_compute. reflexivity.
    + apply list_elem_of_singleton in Hb. subst b. discriminate Hp.
  - intros b Hb Hp. vm_compute in Hb.
    apply elem_of_cons in Hb as [-> | Hb].
    + discriminate Hp.
    + apply list_elem_of_singleton in Hb. subst b. vm_compute. reflexivity.
Defined.

Lemma spawnEnemies_when_due_witness :
  (exists e, enemies (@spawnEnemies BC EC 3000 dueToSpawn (worldAt 3000)).1 = [] ++ [e])
  /\ enemies (@spawnEnemies BC EC 3000 strayLevel (worldAt 3000)).1 = []
  /\ lastSpawnTime (@spawnEnemies BC EC 3000 strayLevel (worldAt 3000)).1 = 3000.
Proof.
  assert (H1 : spawnInterval dueToSpawn <= 3000 - lastSpawnTime dueToSpawn)
    by (vm_compute; discriminate).
  assert (H2 : spawnInterval strayLevel <= 3000 - lastSpawnTime strayLevel)
    by (vm_compute; discriminate).
  destruct (@spawnEnemies_when_due BC EC 3000 dueToSpawn (worldAt 3000) H1)
    as (_ & Hadd & _).
  destruct (@spawnEnemies_when_due BC EC 3000 strayLevel (worldAt 3000) H2)
    as (Ht & _ & Hnone).
  split; [apply Hadd; right; left; reflexivity|].
  split; [|exact Ht].
  apply Hnone. repeat split; discriminate.
Defined.

Lemma reset_is_a_fresh_game_witness :
  @reset BC EC overGame (worldAt 7) = @reset BC EC twoInFlight (worldAt 7).
Proof.
  apply (proj2 (@reset_is_a_fresh_game BC EC twoInFlight (worldAt 7))); reflexivity.
Defined.

Lemma score_is_a_growing_multiple_of_ten_witness :
  let this := (@update BC EC CD (@GameEngine_new BC EC 800 600 (worldAt 0)).1
                       (worldAt 2500)).1 in
  0 <= GameState.score (gameState this) /\ (10 | GameState.score (gameState this)).
Proof.
  intros this.
  destruct (@score_is_a_growing_multiple_of_ten BC EC CD this) as (H1 & H2 & _).
  - apply Reachable_update, Reachable_new.
  - split; assumption.
Defined.

Lemma createEnemy_succeeds_iff_listed_witness :
  exists e w', @EnemyFactory.createEnemy EC LINEA 2 800 600 (worldAt 0) = (Some e, w').
Proof.
  apply (@createEnemy_succeeds_iff_listed EC LINEA 2 800 600 (worldAt 0)).
  apply list_elem_of_In. cbn. tauto.
Defined.

Lemma enemy_table_is_consistent_witness :
  EnemyConfig.type starkent = STARKENT /\ EnemyConfig.level starkent = 1
  /\ EnemyConfig.canShoot starkent = false.
Proof.
  destruct (proj1 enemy_table_is_consistent 1 _ STARKENT starkent eq_refl eq_refl)
    as (H1 & H2 & _ & _ & _ & H3 & _).
  split; [exact H1|]. split; [exact H2|exact H3].
Defined.

Lemma createRandomEnemy_never_misses_witness :
  exists config,
    EnemyConfig.level config = 2
    /\ EnemyConfig.type config ∈ EnemyFactory.getEnemyTypesForLevel 2
    /\ @EnemyFactory.createRandomEnemy EC 2 800 600 (worldAt 0)
       = let (e, w') := @Enemy_new EC config 800 600 (Math_random (worldAt 0)).2 in
         (Some e, w').
Proof.
  apply (@createRandomEnemy_never_misses EC 2 800 600 (worldAt 0)).
  right; left; reflexivity.
Defined.

Lemma handleShoot_rate_limit_witness :
  let ui := @mkUI BC EC level1Game 0 in
  let r1 := @handleShoot BC EC ui tickingWorld in
  let r2 := @handleShoot BC EC r1.1 r1.2 in
  length (bullets (gameEngine r1.1)) = 2%nat
  /\ lastShootTimeRef r1.1 = 10000
  /\ r2.1 = r1.1.
Proof.
  intros ui r1 r2. split; [reflexivity|]. split; [reflexivity|].
  apply (proj2 (@handleShoot_rate_limit BC EC ui tickingWorld)).
  - reflexivity.
  - vm_compute. reflexivity.
Defined.

Lemma levelTimeRemaining_agrees_with_level_check_witness :
  exists r,
    (@levelTimeRemaining BC EC level1Game (worldAt 1500)).1 = Some r
    /\ 0 <= r
    /\ (r = 0 <-> @durationElapsed (1500 - 0) (Some 30000) = true)
    /\ (0 < r -> 1000 * (r - 1) < 30000 - (1500 - 0) <= 1000 * r).
Proof.
  exact (@levelTimeRemaining_agrees_with_level_check BC EC level1Game (worldAt 1500)
           30000 eq_refl).
Defined.

Lemma mint_answers_witness :
  let r := MintApi.handler string (Some "0xc0ffee"%string) (Some ["mint"%string])
             (Some "0xkey"%string) startsWith0x confirmingChain noBody
             (mintRequest "POST" "0x1234") in
  MintApi.status r = 200 /\ MintApi.txHash r = Some "0xabc"%string.
Proof.
  intros r. subst r.
  destruct (mint_answers string (Some "0xc0ffee"%string) (Some ["mint"%string])
              (Some "0xkey"%string) startsWith0x noBody confirmingChain
              (mintRequest "POST" "0x1234")) as (Hiff & Hok & _).
  split; [apply Hiff; reflexivity|].
  destruct (Hok eq_refl) as (_ & key & a & hash & _ & _ & Hc & Ht & _).
  rewrite Ht. unfold confirmingChain in Hc. congruence.
Defined.

Lemma mint_asks_the_chain_only_when_accepted_witness :
  MintApi.handler string (Some "0xc0ffee"%string) (Some ["mint"%string])
    (Some "0xkey"%string) startsWith0x confirmingChain noBody
    (mintRequest "GET" "0x1234")
  = MintApi.handler string (Some "0xc0ffee"%string) (Some ["mint"%string])
      (Some "0xkey"%string) startsWith0x failingChain noBody
      (mintRequest "GET" "0x1234").
Proof.
  apply (proj1 (mint_asks_the_chain_only_when_accepted string
                  (Some "0xc0ffee"%string) (Some ["mint"%string])
                  (Some "0xkey"%string) startsWith0x noBody
                  (mintRequest "GET" "0x1234"))).
  reflexivity.
Defined.

Lemma mint_effect_witness :
  exists s',
    sbtMint 7 42 sbtFresh = Some s'
    /\ BaseShooterSBT.totalSupply Z s' = 0 + 1
    /\ BaseShooterSBT.tokensOfOwner Z s' 42 = [] ++ [0].
Proof.
  eexists. split; [reflexivity|].
  destruct (mint_effect Z sbtOwner sbtSafeMint sbtSetTokenURI 7 42 sbtFresh _ eq_refl)
    as (_ & _ & H1 & H2 & _).
  split; [exact H1|exact H2].
Defined.

Lemma batchMint_effect_witness :
  exists s',
    sbtBatchMint 7 [42; 43; 42] sbtFresh = Some s'
    /\ BaseShooterSBT.totalSupply Z s' = 0 + 3
    /\ BaseShooterSBT.tokensOfOwner Z s' 42 = [0; 2]
    /\ BaseShooterSBT.tokensOfOwner Z s' 43 = [1]
    /\ sbtBatchMint 7 [42; 0; 42] sbtFresh = None
    /\ sbtBatchMint 8 [42] sbtFresh = None.
Proof.
  eexists. split; [reflexivity|].
  destruct (batchMint_effect Z sbtOwner sbtSafeMint sbtSetTokenURI 7 [42; 43; 42]
              sbtFresh _ eq_refl) as (_ & _ & _ & H1 & _ & H2).
  split; [exact H1|]. split; [exact (H2 42)|]. split; [exact (H2 43)|].
  split; reflexivity.
Defined.

Lemma deployed_lists_are_consistent_witness :
  sbtMint 7 42 sbtFresh = Some sbtAfterMint
  /\ sbtBatchMint 7 [43; 42] sbtAfterMint = Some sbtAfterBatch
  /\ BaseShooterSBT.tokensOfOwner Z sbtAfterBatch 42 = [0; 2]
  /\ NoDup (BaseShooterSBT.tokensOfOwner Z sbtAfterBatch 42)
  /\ BaseShooterSBT.tokensOfOwner Z sbtAfterBatch 0 = [].
Proof.
  split; [reflexivity|]. split; [reflexivity|]. split; [reflexivity|].
  destruct (deployed_lists_are_consistent Z sbtOwner sbtSafeMint sbtSetTokenURI
              sbtAfterBatch) as (_ & _ & _ & Hnd & Hz & _).
  - apply (BaseShooterSBT.Deployed_batchMint Z sbtOwner sbtSafeMint sbtSetTokenURI
             sbtAfterMint 7 [43; 42]); [|reflexivity].
    apply (BaseShooterSBT.Deployed_mint Z sbtOwner sbtSafeMint sbtSetTokenURI
             sbtFresh 7 42); [|reflexivity].
    apply BaseShooterSBT.Deployed_deploy.
  - split; [apply Hnd|exact Hz].
Defined.

End MoreExamples.
